(** * Observable contracts: src/stores/eth/contracts.js

    A shallow embedding of the contract-handle cache, the call interceptor
    (override injection), the tracked-call registry and the block-driven
    refresh scheduler of [src/stores/eth/contracts.js].

    The module-level variables of the source ([contracts],
    [trackedBalances], [trackedFunctions], [blockNumberPid]) become the
    fields of one [world] record that every operation threads through a
    state-and-exception monad.  Promises are run to completion where they
    are created (one legal schedule of the event loop); a rejected promise
    is a value, not an exception of the caller. *)

From Stdlib Require Import Ascii.
From stdpp Require Import gmap strings list fin_maps pretty.

Set Warnings "-register-all".

(** ** JavaScript values *)

Inductive value :=
  | VUndefined
  | VNull
  | VBool (b : bool)
  | VNum (n : Z)
  | VStr (s : string)
  | VArr (xs : list value)
  | VObj (props : list (string * value)).

(** A plain object is its list of own properties in insertion order (the
    order [JSON.stringify] and [Object.keys] observe for names that are not
    array indices). *)
Definition object := list (string * value).

(** [isPOJO] of @pie-dao/utils: true exactly on plain objects. *)
Definition isPOJO (v : value) : bool :=
  match v with VObj _ => true | _ => false end.

Fixpoint obj_get (k : string) (o : object) : option value :=
  match o with
  | [] => None
  | (k', v) :: r => if String.eqb k k' then Some v else obj_get k r
  end.

(** [o[k] = v]: an existing property keeps its place, a new one goes last. *)
Fixpoint obj_set (k : string) (v : value) (o : object) : object :=
  match o with
  | [] => [(k, v)]
  | (k', v') :: r =>
      if String.eqb k k' then (k', v) :: r else (k', v') :: obj_set k v r
  end.

(** Copying the own properties of [source] onto [target], in order. *)
Definition obj_assign (target source : object) : object :=
  fold_left (λ acc kv, obj_set kv.1 kv.2 acc) source target.

(** The own enumerable properties a spread sees: none for [undefined]. *)
Definition own_props (o : option object) : object := default [] o.

(** The object literal [{ ...a }]. *)
Definition spread1 (a : option object) : object :=
  obj_assign [] (own_props a).

(** The object literal [{ ...a, ...b }]. *)
Definition spread2 (a : option object) (b : object) : object :=
  obj_assign (spread1 a) b.

(** [args[position] = v] on an array: in range it overwrites, out of range
    the array grows and the skipped slots read as [undefined] when the array
    is spread into a call. *)
Definition js_store (args : list value) (position : nat) (v : value) : list value :=
  if decide (position < length args) then <[position := v]> args
  else args ++ replicate (position - length args) VUndefined ++ [v].

(** [String.prototype.toLowerCase] on ASCII text. *)
Definition lower_ascii (c : ascii) : ascii :=
  let n := nat_of_ascii c in
  if Nat.leb 65 n && Nat.leb n 90 then ascii_of_nat (n + 32) else c.

Fixpoint toLowerCase (s : string) : string :=
  match s with
  | EmptyString => EmptyString
  | String c r => String (lower_ascii c) (toLowerCase r)
  end.

(** [String.prototype.split] with a one-character separator. *)
Fixpoint js_split (sep : ascii) (s : string) : list string :=
  match s with
  | EmptyString => [EmptyString]
  | String c r =>
      if Ascii.eqb c sep then EmptyString :: js_split sep r
      else match js_split sep r with
           | [] => [String c EmptyString]
           | h :: t => String c h :: t
           end
  end.

(** An array element read by destructuring: [undefined] past the end. *)
Definition element (xs : list string) (i : nat) : value :=
  match xs !! i with Some s => VStr s | None => VUndefined end.

(** ** Contract interface and binding (ethers.Contract) *)

Inductive fragment_type := FFunction | FEvent | FConstructor.

Record fragment := {
  frag_type : fragment_type;
  frag_name : option string;   (* a constructor fragment has no name *)
  frag_inputs : list string;   (* the parameter types *)
}.

Definition abi := list fragment.

(** [new ethers.Contract(address, abi, signerOrProvider)]. *)
Record binding := {
  b_address : string;
  b_interface : abi;
  b_signer : option string;    (* the signer it is connected to, if any *)
}.

Definition is_function_named (name : string) (f : fragment) : bool :=
  match frag_type f, frag_name f with
  | FFunction, Some n => String.eqb n name
  | _, _ => false
  end.

(** [Object.keys(contract.functions)]: the names of the function fragments. *)
Definition functionNames (c : binding) : list string :=
  omap (λ f, match frag_type f with FFunction => frag_name f | _ => None end)
       (b_interface c).

Definition is_function (c : binding) (prop : string) : bool :=
  existsb (is_function_named prop) (b_interface c).

(** The data members every binding carries besides its functions. *)
Definition binding_attributes : list string :=
  ["address"; "interface"; "provider"; "functions"; "callStatic";
   "estimateGas"; "populateTransaction"; "filters"].

(** Truthiness of [contract[prop]]. *)
Definition binding_has (c : binding) (prop : string) : bool :=
  is_function c prop || existsb (String.eqb prop) binding_attributes.

(** [contract.functions[functionName]], a closure of the binding it was
    read from. *)
Record rawFunction := {
  rf_name : string;
  rf_owner : binding;
}.

(** A call that reaches the underlying binding. *)
Inductive call :=
  | CallMember (c : binding) (prop : string) (args : list value)
      (* contract[prop](...args) *)
  | CallRaw (f : rawFunction) (this : binding) (args : list value).
      (* rawFunction.bind(this)(...args) *)

(** ** Exceptions *)

Inductive error :=
  | InvalidAddress (a : string)              (* validateIsAddress *)
  | FunctionNotFound (name address : string) (* thrown by expectedArgLength *)
  | ReferenceError (identifier : string)     (* an unbound identifier is read *)
  | TypeError (what : string).

Inductive outcome (A : Type) :=
  | Ok (a : A)
  | Throw (e : error).
Arguments Ok {A} a.
Arguments Throw {A} e.

(** ** The module state *)

(** The proxy [observableContract] returns.  Two proxies are the same
    object exactly when their [h_id] agree. *)
Record handle := {
  h_id : nat;
  h_address : string;
  h_raw : binding;
}.

Record trackedEntry := {
  contractAddress : string;
  entry_rawFunction : rawFunction;
  entry_args : list value;
  entry_overrides : object;
}.

Inductive logline :=
  | LogRunning (now : Z)            (* 'running balance update', Date.now() *)
  | LogBlockNumber (n : Z)          (* 'blockNumber', n *)
  | WarnInvalidKey (key : string)
  | WarnKeyFormat
  | ErrorAbi (address : string)     (* console.error(e) after findAbi failed *)
  | WarnFallback (address : string).

(** What became of one callback of a refresh cycle. *)
Inductive dispatch :=
  | Published (v : value)           (* subject(key).next(v) ran *)
  | Skipped                         (* warned, nothing else *)
  | Rejected (e : option error).    (* the callback's promise rejected *)

Record world := {
  contracts : gmap string handle;
  nextHandle : nat;
  trackedBalances : list string;                   (* a Set, insertion order *)
  trackedFunctions : list (string * trackedEntry); (* an object, insertion order *)
  blockNumberPid : Z * option nat;
  timers : list (nat * Z);          (* pending timeouts: id and due time *)
  nextTimer : nat;
  clock : Z;
  signer : option string;           (* get(eth).signer *)
  published : list (string * value);(* every subject(key).next(v), oldest first *)
  calls : list call;                (* calls made on bindings, oldest first *)
  console : list logline;
  cycles : list (list (string * dispatch)); (* per refresh cycle, its callbacks *)
}.

Definition set_contracts (f : gmap string handle → gmap string handle) (s : world) : world :=
  {| contracts := f (contracts s); nextHandle := nextHandle s;
     trackedBalances := trackedBalances s; trackedFunctions := trackedFunctions s;
     blockNumberPid := blockNumberPid s; timers := timers s;
     nextTimer := nextTimer s; clock := clock s; signer := signer s;
     published := published s; calls := calls s; console := console s;
     cycles := cycles s |}.

Definition set_nextHandle (n : nat) (s : world) : world :=
  {| contracts := contracts s; nextHandle := n;
     trackedBalances := trackedBalances s; trackedFunctions := trackedFunctions s;
     blockNumberPid := blockNumberPid s; timers := timers s;
     nextTimer := nextTimer s; clock := clock s; signer := signer s;
     published := published s; calls := calls s; console := console s;
     cycles := cycles s |}.

Definition set_trackedBalances (f : list string → list string) (s : world) : world :=
  {| contracts := contracts s; nextHandle := nextHandle s;
     trackedBalances := f (trackedBalances s); trackedFunctions := trackedFunctions s;
     blockNumberPid := blockNumberPid s; timers := timers s;
     nextTimer := nextTimer s; clock := clock s; signer := signer s;
     published := published s; calls := calls s; console := console s;
     cycles := cycles s |}.

Definition set_trackedFunctions
    (f : list (string * trackedEntry) → list (string * trackedEntry)) (s : world) : world :=
  {| contracts := contracts s; nextHandle := nextHandle s;
     trackedBalances := trackedBalances s; trackedFunctions := f (trackedFunctions s);
     blockNumberPid := blockNumberPid s; timers := timers s;
     nextTimer := nextTimer s; clock := clock s; signer := signer s;
     published := published s; calls := calls s; console := console s;
     cycles := cycles s |}.

Definition set_scheduler (pid : Z * option nat) (ts : list (nat * Z)) (next : nat)
    (s : world) : world :=
  {| contracts := contracts s; nextHandle := nextHandle s;
     trackedBalances := trackedBalances s; trackedFunctions := trackedFunctions s;
     blockNumberPid := pid; timers := ts;
     nextTimer := next; clock := clock s; signer := signer s;
     published := published s; calls := calls s; console := console s;
     cycles := cycles s |}.

Definition set_clock (t : Z) (s : world) : world :=
  {| contracts := contracts s; nextHandle := nextHandle s;
     trackedBalances := trackedBalances s; trackedFunctions := trackedFunctions s;
     blockNumberPid := blockNumberPid s; timers := timers s;
     nextTimer := nextTimer s; clock := t; signer := signer s;
     published := published s; calls := calls s; console := console s;
     cycles := cycles s |}.

Definition add_published (key : string) (v : value) (s : world) : world :=
  {| contracts := contracts s; nextHandle := nextHandle s;
     trackedBalances := trackedBalances s; trackedFunctions := trackedFunctions s;
     blockNumberPid := blockNumberPid s; timers := timers s;
     nextTimer := nextTimer s; clock := clock s; signer := signer s;
     published := published s ++ [(key, v)]; calls := calls s; console := console s;
     cycles := cycles s |}.

Definition add_call (c : call) (s : world) : world :=
  {| contracts := contracts s; nextHandle := nextHandle s;
     trackedBalances := trackedBalances s; trackedFunctions := trackedFunctions s;
     blockNumberPid := blockNumberPid s; timers := timers s;
     nextTimer := nextTimer s; clock := clock s; signer := signer s;
     published := published s; calls := calls s ++ [c]; console := console s;
     cycles := cycles s |}.

Definition add_console (l : logline) (s : world) : world :=
  {| contracts := contracts s; nextHandle := nextHandle s;
     trackedBalances := trackedBalances s; trackedFunctions := trackedFunctions s;
     blockNumberPid := blockNumberPid s; timers := timers s;
     nextTimer := nextTimer s; clock := clock s; signer := signer s;
     published := published s; calls := calls s; console := console s ++ [l];
     cycles := cycles s |}.

Definition add_cycle (c : list (string * dispatch)) (s : world) : world :=
  {| contracts := contracts s; nextHandle := nextHandle s;
     trackedBalances := trackedBalances s; trackedFunctions := trackedFunctions s;
     blockNumberPid := blockNumberPid s; timers := timers s;
     nextTimer := nextTimer s; clock := clock s; signer := signer s;
     published := published s; calls := calls s; console := console s;
     cycles := cycles s ++ [c] |}.

(** The state the module has when it is loaded. *)
Definition initial (sg : option string) : world :=
  {| contracts := ∅; nextHandle := 0;
     trackedBalances := []; trackedFunctions := [];
     blockNumberPid := (0%Z, None); timers := [];
     nextTimer := 0; clock := 0%Z; signer := sg;
     published := []; calls := []; console := [];
     cycles := [] |}.

(** ** State and exception monad *)

Definition M (A : Type) : Type := world → outcome A * world.

#[global] Instance M_ret : MRet M := λ A a s, (Ok a, s).
#[global] Instance M_bind : MBind M := λ A B f m s,
  match m s with
  | (Ok a, s') => f a s'
  | (Throw e, s') => (Throw e, s')
  end.

Definition gets {A} (f : world → A) : M A := λ s, (Ok (f s), s).
Definition modify (f : world → world) : M unit := λ s, (Ok tt, f s).
Definition throw {A} (e : error) : M A := λ s, (Throw e, s).
Definition lift {A} (o : outcome A) : M A := λ s, (o, s).

Ltac monad :=
  unfold mbind, M_bind, mret, M_ret, gets, modify, throw, lift in *; simpl in *.

(** ** What the module imports *)

Record externals := {
  isAddress : string → bool;
    (* @pie-dao/utils; false on anything that is not a string *)
  findAbi : string → option abi;
    (* ./abi; None when the lookup promise rejects *)
  erc20 : abi;
    (* @pie-dao/abis *)
  contractOverrides : gmap string (gmap string object);
    (* ../../config/contractOverrides.json: lower-case address, then
       function name, then the parameter object *)
  balanceKey : string → string → string;
  functionKey : string → string → list value → object → string;
    (* ./keys *)
  chain : nat → call → option value;
    (* what the n-th call on a binding resolves to; None when it rejects *)
  toString : value → string;
    (* toString() of a returned balance *)
}.

Section Contracts.
Context (X : externals).

Definition isAddressV (v : value) : bool :=
  match v with VStr s => isAddress X s | _ => false end.

Definition text (v : value) : string :=
  match v with VStr s => s | _ => EmptyString end.

Definition props_of (v : value) : object :=
  match v with VObj o => o | _ => [] end.

(** [validateIsAddress] of @pie-dao/utils. *)
Definition validateIsAddress (address : string) : M unit :=
  if isAddress X address then mret tt else throw (InvalidAddress address).

(** A call on a binding: it is recorded, and resolves or rejects as the
    chain decides. *)
Definition invoke (c : call) : M (option value) :=
  n ← gets (λ s, length (calls s));
  modify (add_call c);;
  mret (chain X n c).

(** [contract[prop](...args)] on the binding itself. *)
Definition call_binding (contract : binding) (prop : string) (args : list value)
    : M (option value) :=
  if is_function contract prop then invoke (CallMember contract prop args)
  else throw (TypeError "contract[prop] is not a function").

(** ** Override registry (lines 119-127) *)

Definition getOverrides (functionName : string) (contract : binding) : option object :=
  let addy := toLowerCase (b_address contract) in
  match contractOverrides X !! addy with
  | Some table => table !! functionName
  | None => None
  end.

Definition hasOverrides (functionName : string) (contract : binding) : bool :=
  match getOverrides functionName contract with
  | Some _ => true
  | None => false
  end.

(** ** Override injection (lines 63-73 and 129-147) *)

Definition expectedArgLength (functionName : string) (contract : binding) : outcome nat :=
  match find (λ f, match frag_name f with
                   | Some name => String.eqb name functionName
                   | None => false
                   end) (b_interface contract) with
  | None => Throw (FunctionNotFound functionName (b_address contract))
  | Some definition => Ok (length (frag_inputs definition))
  end.

(** The guard's [throw new Error(...)] builds its message from
    [${address}], a name bound nowhere in the module: reaching it raises a
    ReferenceError. *)
Definition overrideWrapped (prop : string) (contract : binding)
    (passedArgs : list value) : M (option value) :=
  let args := passedArgs in
  position ← lift (expectedArgLength prop contract);
  if decide (position < length args) then throw (ReferenceError "address")
  else
    let slot := default VUndefined (args !! position) in
    let args :=
      if isPOJO slot
      then js_store args position
             (VObj (spread2 (getOverrides prop contract) (props_of slot)))
      else js_store args position
             (VObj (spread1 (getOverrides prop contract))) in
    call_binding contract prop args.

(** ** The proxy handler (lines 191-203) *)

Inductive member :=
  | AddonRaw (contract : binding)
  | AddonTrackBalance (address : string)
  | AddonFunctions (address : string) (contract : binding)
  | OverrideWrapped (prop : string) (contract : binding)
  | BindingMember (prop : string) (contract : binding)
  | TargetMember (prop : string).   (* obj[prop] of the empty target *)

Definition handler_get (h : handle) (prop : string) : member :=
  let contract := h_raw h in
  if String.eqb prop "raw" then AddonRaw contract
  else if String.eqb prop "trackBalance" then AddonTrackBalance (h_address h)
  else if String.eqb prop "functions" then AddonFunctions (h_address h) contract
  else if binding_has contract prop && hasOverrides prop contract
  then OverrideWrapped prop contract
  else if binding_has contract prop then BindingMember prop contract
  else TargetMember prop.

(** Calling what a property access on the proxy returned, for the members
    that stand for contract functions. *)
Definition call_member (m : member) (args : list value) : M (option value) :=
  match m with
  | OverrideWrapped prop contract => overrideWrapped prop contract args
  | BindingMember prop contract => call_binding contract prop args
  | _ => throw (TypeError "not a contract function")
  end.

(** [handle[prop](...args)]. *)
Definition call_property (h : handle) (prop : string) (args : list value)
    : M (option value) :=
  call_member (handler_get h prop) args.

(** ** The handle cache (lines 149-216) *)

Definition observableContract (abi : option abi) (address : string) : M handle :=
  validateIsAddress address;;
  cached ← gets (λ s, contracts s !! address);
  match cached, abi with
  | Some h, None => mret h
  | _, _ =>
      contractAbi ←
        match abi with
        | Some a => mret a
        | None =>
            match findAbi X address with
            | Some a => mret a
            | None =>
                modify (add_console (ErrorAbi address));;
                modify (add_console (WarnFallback address));;
                mret (erc20 X)
            end
        end;
      sg ← gets signer;
      let contract :=
        {| b_address := address; b_interface := contractAbi; b_signer := sg |} in
      id ← gets nextHandle;
      modify (set_nextHandle (S id));;
      let proxy := {| h_id := id; h_address := address; h_raw := contract |} in
      match abi with
      | None => modify (set_contracts (λ c, <[address := proxy]> c))
      | Some _ => mret tt
      end;;
      mret proxy
  end.

(** The state in which a handle is built once its ABI is known: nothing
    but the console can have changed. *)
Definition resolving (a : string) (s : world) : world :=
  match findAbi X a with
  | Some _ => s
  | None => add_console (WarnFallback a) (add_console (ErrorAbi a) s)
  end.

Definition resetContractCache : M unit :=
  modify (set_contracts (λ _, ∅)).

(** ** Trackable functions (lines 88-117) *)

(** The promise [functions[name](...args)] returns, with what its [track]
    closes over. *)
Record trackable := {
  t_contractAddress : string;
  t_functionName : string;
  t_rawFunction : rawFunction;
  t_contract : binding;
  t_args : list value;
  t_result : option value;
}.

Definition generateTrackableFunction (contractAddress functionName : string)
    (rawFunction : rawFunction) (args : list value) : M trackable :=
  cached ← gets (λ s, contracts s !! contractAddress);
  match cached with
  | None => throw (TypeError "contracts[contractAddress] is undefined")
  | Some h =>
      let contract := h_raw h in
      r ← invoke (CallRaw rawFunction contract args);
      mret {| t_contractAddress := contractAddress;
              t_functionName := functionName;
              t_rawFunction := rawFunction;
              t_contract := contract;
              t_args := args;
              t_result := r |}
  end.

(** [trackedFunctions[key] = entry]. *)
Fixpoint tf_set (key : string) (e : trackedEntry) (tf : list (string * trackedEntry))
    : list (string * trackedEntry) :=
  match tf with
  | [] => [(key, e)]
  | (k, e') :: r =>
      if String.eqb key k then (k, e) :: r else (k, e') :: tf_set key e r
  end.

Fixpoint tf_get (key : string) (tf : list (string * trackedEntry)) : option trackedEntry :=
  match tf with
  | [] => None
  | (k, e) :: r => if String.eqb key k then Some e else tf_get key r
  end.

(** [trackable.track(callerOverrides = {})]; the stream it returns is
    [subject(key)], named here by its key. *)
Definition track (t : trackable) (passed : option object) : M string :=
  let callerOverrides := default [] passed in
  let overrides := callerOverrides in
  let key := functionKey X (t_contractAddress t) (t_functionName t) (t_args t) overrides in
  let overrides :=
    if hasOverrides (t_functionName t) (t_contract t)
    then spread2 (getOverrides (t_functionName t) (t_contract t)) callerOverrides
    else overrides in
  modify (set_trackedFunctions
            (tf_set key {| contractAddress := t_contractAddress t;
                           entry_rawFunction := t_rawFunction t;
                           entry_args := t_args t;
                           entry_overrides := overrides |}));;
  r ← invoke (CallRaw (t_rawFunction t) (t_contract t) (t_args t ++ [VObj overrides]));
  match r with
  | Some results => modify (add_published key results)
  | None => mret tt
  end;;
  mret key.

(** The overrides [track] stores and sends. *)
Definition effectiveOverrides (t : trackable) (callerOverrides : object) : object :=
  if hasOverrides (t_functionName t) (t_contract t)
  then spread2 (getOverrides (t_functionName t) (t_contract t)) callerOverrides
  else callerOverrides.

(** [handle.functions[functionName]], when the binding has that function. *)
Definition handle_functions (h : handle) (functionName : string)
    : option (list value → M trackable) :=
  if existsb (String.eqb functionName) (functionNames (h_raw h))
  then Some (generateTrackableFunction (h_address h) functionName
               {| rf_name := functionName; rf_owner := h_raw h |})
  else None.

(** ** Balance tracking (lines 75-86) *)

(** [Set.prototype.add]. *)
Definition set_add (key : string) (keys : list string) : list string :=
  if existsb (String.eqb key) keys then keys else keys ++ [key].

Definition generateTrackBalanceFunction (contractAddress account : string) : M string :=
  validateIsAddress account;;
  let key := balanceKey X contractAddress account in
  modify (set_trackedBalances (set_add key));;
  contract ← observableContract (Some (erc20 X)) contractAddress;
  r ← call_property contract "balanceOf" [VStr account];
  match r with
  | Some balance => modify (add_published key (VStr (toString X balance)))
  | None => mret tt
  end;;
  mret key.

(** ** The refresh cycle (lines 20-44) *)

(** An async callback run to completion: an exception inside it rejects
    the callback's own promise and goes no further. *)
Definition settle (m : M dispatch) (s : world) : dispatch * world :=
  match m s with
  | (Ok d, s') => (d, s')
  | (Throw e, s') => (Rejected (Some e), s')
  end.

(** The test a tracked-balance key has to pass: both parts of
    [key.split(".")] are addresses. *)
Definition wellFormedKey (key : string) : bool :=
  isAddressV (element (js_split "." key) 0)
  && isAddressV (element (js_split "." key) 1).

Definition refreshBalance (key : string) : M dispatch :=
  let parts := js_split "." key in
  let token := element parts 0 in
  let account := element parts 1 in
  if isAddressV token && isAddressV account then
    h ← observableContract (Some (erc20 X)) (text token);
    r ← call_binding (h_raw h) "balanceOf" [account];
    match r with
    | Some b =>
        let balance := VStr (toString X b) in
        modify (add_published key balance);;
        mret (Published balance)
    | None => mret (Rejected None)
    end
  else
    modify (add_console (WarnInvalidKey key));;
    modify (add_console WarnKeyFormat);;
    mret Skipped.

Definition refreshFunction (key : string) : M dispatch :=
  entry ← gets (λ s, tf_get key (trackedFunctions s));
  match entry with
  | None => throw (TypeError "trackedFunctions[key] is undefined")
  | Some e =>
      h ← observableContract None (contractAddress e);
      r ← invoke (CallRaw (entry_rawFunction e) (h_raw h)
                    (entry_args e ++ [VObj (entry_overrides e)]));
      match r with
      | Some results =>
          modify (add_published key results);;
          mret (Published results)
      | None => mret (Rejected None)
      end
  end.

Fixpoint forEach (callback : string → M dispatch) (keys : list string) (s : world)
    : list (string * dispatch) * world :=
  match keys with
  | [] => ([], s)
  | key :: rest =>
      let (d, s1) := settle (callback key) s in
      let (ds, s2) := forEach callback rest s1 in
      ((key, d) :: ds, s2)
  end.

Definition updateOnBlock (s : world) : world :=
  let s0 := add_console (LogRunning (clock s)) s in
  let (balances, s1) := forEach refreshBalance (trackedBalances s0) s0 in
  let (functions, s2) := forEach refreshFunction (map fst (trackedFunctions s1)) s1 in
  add_cycle (balances ++ functions) s2.

(** ** The scheduler (lines 18 and 46-61) *)

(** [clearTimeout(id)]: nothing happens for [undefined] or a timer that is
    no longer pending. *)
Definition clearTimeout (id : option nat) (ts : list (nat * Z)) : list (nat * Z) :=
  match id with
  | Some i => filter (λ t, t.1 ≠ i) ts
  | None => ts
  end.

(** [clearTimeout(blockNumberPid[1]);
     blockNumberPid = [blockNumber, setTimeout(updateOnBlock, 500)]]. *)
Definition arm (blockNumber : Z) (s : world) : world :=
  let ts := clearTimeout (blockNumberPid s).2 (timers s) in
  let id := nextTimer s in
  set_scheduler (blockNumber, Some id) (ts ++ [(id, (clock s + 500)%Z)]) (S id) s.

Definition onBlockNumber (blockNumber : Z) (s : world) : world :=
  let s := add_console (LogBlockNumber blockNumber) s in
  if decide ((blockNumberPid s).1 + 4 < blockNumber)%Z then arm blockNumber s else s.

Definition onBlockNumberBump (blockNumber : Z) (s : world) : world :=
  arm blockNumber s.

(** Time passing: every timeout that has come due is taken off the pending
    list and its callback runs. *)
Definition elapse (ms : Z) (s : world) : world :=
  let now := (clock s + ms)%Z in
  let due := filter (λ t, (t.2 ≤ now)%Z) (timers s) in
  let rest := filter (λ t, ¬ (t.2 ≤ now)%Z) (timers s) in
  let s := set_clock now (set_scheduler (blockNumberPid s) rest (nextTimer s) s) in
  fold_left (λ acc _, updateOnBlock acc) due s.

(** What can happen to the module. *)
Inductive event :=
  | BlockNumber (n : Z)                 (* subject("blockNumber") emits *)
  | BlockNumberBump (n : Z)             (* subject("blockNumberBump") emits *)
  | Elapse (ms : Z)
  | GetContract (abi : option abi) (address : string)
  | ResetCache
  | TrackBalance (contractAddress account : string)
  | TrackCall (h : handle) (functionName : string) (args : list value)
      (callerOverrides : option object)  (* h.functions[name](...args).track(o) *)
  | CallProperty (h : handle) (prop : string) (args : list value).

Definition step (e : event) (s : world) : world :=
  match e with
  | BlockNumber n => onBlockNumber n s
  | BlockNumberBump n => onBlockNumberBump n s
  | Elapse ms => elapse ms s
  | GetContract abi address => (observableContract abi address s).2
  | ResetCache => (resetContractCache s).2
  | TrackBalance a account => (generateTrackBalanceFunction a account s).2
  | TrackCall h name args o =>
      match handle_functions h name with
      | Some f => ((t ← f args; track t o) s).2
      | None => s
      end
  | CallProperty h prop args => (call_property h prop args s).2
  end.

Definition run (es : list event) (s : world) : world :=
  fold_left (λ acc e, step e acc) es s.

(** The number of refresh cycles run so far. *)
Definition refreshCount (s : world) : nat := length (cycles s).

End Contracts.

(** ** A concrete environment *)

(** Modelled from the spec: [balanceKey] of src/stores/eth/keys.js, which
    is not among the sources.  The spec asks for a key that decodes back to
    the pair; the refresh cycle decodes with [split(".")] and its warning
    names the format '[token address].[wallet address]'. *)
Definition balanceKey_model (token account : string) : string :=
  token +:+ "." +:+ account.

Fixpoint show_value (v : value) : string :=
  match v with
  | VUndefined => "undefined"
  | VNull => "null"
  | VBool true => "true"
  | VBool false => "false"
  | VNum n => pretty n
  | VStr s => "'" +:+ s +:+ "'"
  | VArr xs => "[" +:+ String.concat "," (map show_value xs) +:+ "]"
  | VObj ps =>
      "{" +:+ String.concat "," (map (λ kv, kv.1 +:+ ":" +:+ show_value kv.2) ps) +:+ "}"
  end.

(** Modelled from the spec: [functionKey] of src/stores/eth/keys.js, which
    is not among the sources.  The spec asks for a deterministic identifier
    of the tuple (contract, function, args, overrides) whose serialization
    of the arguments keeps their order and tells ["1"] from [1]. *)
Definition functionKey_model (address functionName : string) (args : list value)
    (overrides : object) : string :=
  address +:+ "." +:+ functionName +:+ "." +:+ show_value (VArr args)
          +:+ "." +:+ show_value (VObj overrides).

Definition is_hex (c : ascii) : bool :=
  let n := nat_of_ascii c in
  (Nat.leb 48 n && Nat.leb n 57) || (Nat.leb 65 n && Nat.leb n 70)
  || (Nat.leb 97 n && Nat.leb n 102).

Fixpoint all_hex (s : string) : bool :=
  match s with
  | EmptyString => true
  | String c r => is_hex c && all_hex r
  end.

(** An address is [0x] and forty hexadecimal digits. *)
Definition isAddress_demo (s : string) : bool :=
  match s with
  | String "0" (String "x" r) =>
      Nat.eqb (String.length r) 40 && all_hex r
  | _ => false
  end.

Definition erc20_demo : abi :=
  [ {| frag_type := FFunction; frag_name := Some "balanceOf";
       frag_inputs := ["address"] |};
    {| frag_type := FFunction; frag_name := Some "transfer";
       frag_inputs := ["address"; "uint256"] |};
    {| frag_type := FEvent; frag_name := Some "Transfer";
       frag_inputs := ["address"; "address"; "uint256"] |} ].

Definition token_demo : string := "0x6B175474E89094C44Da98b954EedeAC495271d0F".
Definition account_demo : string := "0x1111111111111111111111111111111111111111".

Definition registered_demo : object :=
  [("gasLimit", VNum 100000); ("gasPrice", VNum 2)].

Definition demo : externals :=
  {| isAddress := isAddress_demo;
     findAbi := λ _, None;
     erc20 := erc20_demo;
     contractOverrides :=
       {[ toLowerCase token_demo := {[ "transfer" := registered_demo ]} ]};
     balanceKey := balanceKey_model;
     functionKey := functionKey_model;
     chain := λ n _, Some (VNum (Z.of_nat n));
     toString := show_value |}.

Definition contract_demo : binding :=
  {| b_address := token_demo; b_interface := erc20_demo; b_signer := None |}.

Definition handle_demo : handle :=
  {| h_id := 0; h_address := token_demo; h_raw := contract_demo |}.

(** The module after [observableContract({ address: token_demo })]. *)
Definition world_demo : world :=
  (observableContract demo None token_demo (initial None)).2.

Definition trackable_demo : trackable :=
  {| t_contractAddress := token_demo;
     t_functionName := "transfer";
     t_rawFunction := {| rf_name := "transfer"; rf_owner := contract_demo |};
     t_contract := contract_demo;
     t_args := [VStr account_demo; VNum 5];
     t_result := None |}.

(** A session: the token's handle is fetched, a transfer is tracked with
    no overrides of the caller's, and a balance is tracked. *)
Definition session_demo : list event :=
  [ GetContract None token_demo;
    TrackCall handle_demo "transfer" [VStr account_demo; VNum 5] None;
    TrackBalance token_demo account_demo ].

Definition world_tracked : world := run demo session_demo (initial None).


(** ** Invariants *)

(** An operation keeps a property of the module state, however it ends. *)
Definition preserves {A} (I : world → Prop) (m : M A) : Prop :=
  ∀ s, I s → I (m s).2.

(** Every cached proxy was allocated before the next one will be. *)
Definition cache_fresh (s : world) : Prop :=
  ∀ a h, contracts s !! a = Some h → h_id h < nextHandle s.

(** At most one timeout is pending, and it is the one [blockNumberPid]
    holds. *)
Definition one_timer (s : world) : Prop :=
  timers s = []
  ∨ ∃ id due, timers s = [(id, due)] ∧ (blockNumberPid s).2 = Some id
              ∧ id < nextTimer s.

(** The part of the state only the scheduler writes. *)
Definition scheduler (s : world) : Z * option nat * list (nat * Z) * nat * Z :=
  (blockNumberPid s, timers s, nextTimer s, clock s).

(** The part of the state a refresh cycle's callbacks leave alone. *)
Definition tracked (s : world)
    : list string * list (string * trackedEntry) * list (list (string * dispatch)) :=
  (trackedBalances s, trackedFunctions s, cycles s).

(** The last block a refresh was scheduled for. *)
Definition lastTarget (s : world) : Z := (blockNumberPid s).1.

(** The keys a refresh cycle goes through. *)
Definition trackedKeys (s : world) : list string :=
  trackedBalances s ++ map fst (trackedFunctions s).

(** ** Further invariants and helpers *)

(** The environment with another override table. *)
Definition with_overrides (table : gmap string (gmap string object)) (X : externals)
    : externals :=
  {| isAddress := isAddress X;
     findAbi := findAbi X;
     erc20 := erc20 X;
     contractOverrides := table;
     balanceKey := balanceKey X;
     functionKey := functionKey X;
     chain := chain X;
     toString := toString X |}.

(** Every cached proxy sits under its own, valid address and was built
    from the looked-up ABI or the erc20 fallback. *)
Definition cache_consistent (X : externals) (s : world) : Prop :=
  ∀ a h, contracts s !! a = Some h →
    isAddress X a = true
    ∧ h_address h = a
    ∧ b_address (h_raw h) = a
    ∧ b_interface (h_raw h) = default (erc20 X) (findAbi X a).

(** No key is tracked twice. *)
Definition tracked_unique (s : world) : Prop :=
  NoDup (trackedBalances s) ∧ NoDup (map fst (trackedFunctions s)).

(** Whether a character occurs in a string. *)
Fixpoint occurs (c : ascii) (s : string) : bool :=
  match s with
  | EmptyString => false
  | String c' r => Ascii.eqb c' c || occurs c r
  end.

(** ** What a refresh leaves behind *)

Definition is_running (l : logline) : bool :=
  match l with LogRunning _ => true | _ => false end.

(** How often 'running balance update' was logged: once per run of
    [updateOnBlock]. *)
Definition refreshRuns (s : world) : nat :=
  length (List.filter is_running (console s)).

(** The logs of [s1] are those of [s], possibly longer, and the signer is
    the same. *)
Definition grown (s s1 : world) : Prop :=
  length (calls s) ≤ length (calls s1)
  ∧ length (published s) ≤ length (published s1)
  ∧ length (console s) ≤ length (console s1)
  ∧ signer s1 = signer s.

(** Between [s] and [s'] the call [c] was made on a binding, and if it
    resolved, its result was published under [key] (as [shown] renders
    it). *)
Definition sent_since (X : externals) (s s' : world) (c : call) (key : string)
    (shown : value → value) : Prop :=
  ∃ i, length (calls s) ≤ i
       ∧ calls s' !! i = Some c
       ∧ ∀ v, chain X i c = Some v →
           ∃ j, length (published s) ≤ j
                ∧ published s' !! j = Some (key, shown v).

(** Between [s] and [s'] the invalid-key warning was logged for [key]. *)
Definition warned_since (s s' : world) (key : string) : Prop :=
  ∃ j, length (console s) ≤ j ∧ console s' !! j = Some (WarnInvalidKey key).

(** [contract.balanceOf(account)] of lines 25-26 for a tracked-balance
    key: on a binding for the key's token with the erc20 ABI. *)
Definition balanceCall (X : externals) (s : world) (key : string) : call :=
  CallMember
    {| b_address := text (element (js_split "." key) 0);
       b_interface := erc20 X;
       b_signer := signer s |}
    "balanceOf" [element (js_split "." key) 1].

(** [rawFunction.bind(contract)(...args, overrides)] of lines 38-39 for a
    tracked entry. *)
Definition functionCall (e : trackedEntry) (this : binding) : call :=
  CallRaw (entry_rawFunction e) this (entry_args e ++ [VObj (entry_overrides e)]).

(** Every entry tracked in [s] was gone through between [s] and [s']: a
    well-formed balance key had its balance read and published, a malformed
    one was warned about, and a tracked call with a valid contract address
    was sent again on a binding for that address and published. *)
Definition refreshed (X : externals) (s s' : world) : Prop :=
  (∀ key, key ∈ trackedBalances s → wellFormedKey X key = true →
     existsb (is_function_named "balanceOf") (erc20 X) = true →
     sent_since X s s' (balanceCall X s key) key (λ b, VStr (toString X b)))
  ∧ (∀ key, key ∈ trackedBalances s → wellFormedKey X key = false →
       warned_since s s' key)
  ∧ (∀ key e, tf_get key (trackedFunctions s) = Some e →
       isAddress X (contractAddress e) = true →
       ∃ this, b_address this = contractAddress e
               ∧ sent_since X s s' (functionCall e this) key (λ v, v)).

(** * Properties *)

(** ** Objects and arrays *)

Lemma obj_get_set k k' v o :
  obj_get k (obj_set k' v o) = if String.eqb k k' then Some v else obj_get k o.
Proof.
  induction o as [|[k0 v0] o IH]; simpl.
  - reflexivity.
  - destruct (String.eqb k' k0) eqn:E0; simpl.
    + apply String.eqb_eq in E0 as ->.
      destruct (String.eqb k k0); reflexivity.
    + destruct (String.eqb k k0) eqn:E1.
      * apply String.eqb_eq in E1 as ->.
        rewrite String.eqb_sym, E0. reflexivity.
      * exact IH.
Qed.

Lemma obj_assign_snoc target source kv :
  obj_assign target (source ++ [kv]) = obj_set kv.1 kv.2 (obj_assign target source).
Proof. unfold obj_assign. rewrite fold_left_app. reflexivity. Qed.

(** A property read from a copy: the source's value when the source has
    the property, the target's otherwise. *)
Lemma obj_get_assign k target source :
  obj_get k (obj_assign target source) =
  match obj_get k (obj_assign [] source) with
  | Some v => Some v
  | None => obj_get k target
  end.
Proof.
  induction source as [|kv source IH] using rev_ind.
  - reflexivity.
  - rewrite !obj_assign_snoc, !obj_get_set.
    destruct (String.eqb k kv.1); [reflexivity | exact IH].
Qed.

(** [{ ...registered, ...caller }]: the caller's value wins. *)
Lemma spread2_lookup k registered caller :
  obj_get k (spread2 registered caller) =
  match obj_get k (spread1 (Some caller)) with
  | Some v => Some v
  | None => obj_get k (spread1 registered)
  end.
Proof. unfold spread2. apply obj_get_assign. Qed.

(** Copying an object without repeated names gives the object back. *)
Lemma obj_assign_nodup target source :
  NoDup (map fst (target ++ source)) →
  obj_assign target source = target ++ source.
Proof.
  revert target. induction source as [|[k v] source IH]; intros target Hnd.
  - simpl. rewrite app_nil_r. reflexivity.
  - change (obj_assign target ((k, v) :: source))
      with (obj_assign (obj_set k v target) source).
    assert (Hset : obj_set k v target = target ++ [(k, v)]).
    { clear IH. induction target as [|[k0 v0] target IHt]; simpl; [reflexivity|].
      simpl in Hnd. apply NoDup_cons in Hnd as [Hnotin Hnd].
      destruct (String.eqb k k0) eqn:E.
      - apply String.eqb_eq in E as ->. exfalso. apply Hnotin.
        rewrite map_app. apply elem_of_app. right. simpl. left.
      - rewrite IHt; [reflexivity | exact Hnd]. }
    rewrite Hset, IH; rewrite <- app_assoc; [reflexivity | exact Hnd].
Qed.

Lemma spread1_nodup o : NoDup (map fst o) → spread1 (Some o) = o.
Proof. intros H. unfold spread1. simpl. apply (obj_assign_nodup []). exact H. Qed.

Lemma js_store_past_end args position v :
  length args ≤ position →
  js_store args position v =
  args ++ replicate (position - length args) VUndefined ++ [v].
Proof. intros H. unfold js_store. destruct (decide _); [lia | reflexivity]. Qed.

Lemma tf_get_set key e tf : tf_get key (tf_set key e tf) = Some e.
Proof.
  induction tf as [|[k e'] tf IH]; simpl.
  - rewrite String.eqb_refl. reflexivity.
  - destruct (String.eqb key k) eqn:E; simpl; rewrite E; [reflexivity | exact IH].
Qed.

Lemma tf_get_keys key e tf : tf_get key tf = Some e → key ∈ map fst tf.
Proof.
  induction tf as [|[k e'] tf IH]; simpl; [discriminate|].
  destruct (String.eqb key k) eqn:E.
  - apply String.eqb_eq in E as ->. intros _. left.
  - intros H. right. apply IH, H.
Qed.

(** ** Override injection *)

Section Injection.
Context (X : externals).

Lemma invoke_run c s :
  invoke X c s = (Ok (chain X (length (calls s)) c), add_call c s).
Proof. reflexivity. Qed.

(** More arguments than the function declares: the guard fires, nothing is
    called. *)
Lemma overrideWrapped_guard prop contract args n s :
  expectedArgLength prop contract = Ok n →
  n < length args →
  overrideWrapped X prop contract args s = (Throw (ReferenceError "address"), s).
Proof.
  intros Hn Hlt. unfold overrideWrapped. monad. rewrite Hn.
  destruct (decide (n < length args)); [reflexivity | lia].
Qed.

(** At most as many arguments as the function declares: the registered
    overrides are stored at the declared position, past the end of the
    array, and the binding is called. *)
Lemma overrideWrapped_appends prop contract args n s :
  expectedArgLength prop contract = Ok n →
  length args ≤ n →
  is_function contract prop = true →
  let c := CallMember contract prop
             (args ++ replicate (n - length args) VUndefined
                   ++ [VObj (spread1 (getOverrides X prop contract))]) in
  overrideWrapped X prop contract args s
  = (Ok (chain X (length (calls s)) c), add_call c s).
Proof.
  intros Hn Hle Hf. unfold overrideWrapped. monad. rewrite Hn.
  destruct (decide (n < length args)); [lia|].
  rewrite (lookup_ge_None_2 args n) by lia. simpl.
  rewrite js_store_past_end by lia.
  unfold call_binding. rewrite Hf. reflexivity.
Qed.

(** With exactly the declared number of arguments the call receives them
    followed by a copy of the registered overrides. *)
Lemma overrideWrapped_exact prop contract args s :
  expectedArgLength prop contract = Ok (length args) →
  is_function contract prop = true →
  let c := CallMember contract prop
             (args ++ [VObj (spread1 (getOverrides X prop contract))]) in
  overrideWrapped X prop contract args s
  = (Ok (chain X (length (calls s)) c), add_call c s).
Proof.
  intros Hn Hf.
  pose proof (overrideWrapped_appends prop contract args (length args) s Hn
                (le_n _) Hf) as H.
  rewrite Nat.sub_diag in H. exact H.
Qed.

End Injection.

(** C1. The guard of [overrideWrapped] compares the wrong way round: with
    fewer arguments than [transfer(address,uint256)] declares (one instead
    of two) no error is raised and the binding is called, the missing
    argument read as [undefined] and the overrides placed after it. *)
Theorem overrideWrapped_too_few_arguments_calls :
  expectedArgLength "transfer" contract_demo = Ok 2 ∧
  overrideWrapped demo "transfer" contract_demo [VStr account_demo] world_demo
  = (Ok (Some (VNum 0)),
     add_call (CallMember contract_demo "transfer"
                 [VStr account_demo; VUndefined; VObj registered_demo])
              world_demo).
Proof. split; reflexivity. Qed.

(** C5. With the declared two arguments followed by a plain object the
    guard of [overrideWrapped] fires: the call is refused and the merge
    below the guard is never reached. *)
Theorem overrideWrapped_trailing_object_refused :
  expectedArgLength "transfer" contract_demo = Ok 2 ∧
  isPOJO (VObj [("gasLimit", VNum 7)]) = true ∧
  overrideWrapped demo "transfer" contract_demo
    [VStr account_demo; VNum 5; VObj [("gasLimit", VNum 7)]] world_demo
  = (Throw (ReferenceError "address"), world_demo).
Proof. repeat split; reflexivity. Qed.

(** The merge branch of [overrideWrapped] is dead code: an argument at the
    declared position means more arguments than declared, and the guard
    has already fired. *)
Lemma overrideWrapped_merge_unreachable (X : externals) prop contract args n s :
  expectedArgLength prop contract = Ok n →
  isPOJO (default VUndefined (args !! n)) = true →
  overrideWrapped X prop contract args s = (Throw (ReferenceError "address"), s).
Proof.
  intros Hn Hobj. apply (overrideWrapped_guard X prop contract args n s Hn).
  destruct (args !! n) eqn:E; [|discriminate].
  apply lookup_lt_Some in E. exact E.
Qed.

(** ** Tracking a call *)

Section Tracking.
Context (X : externals).

(** C2, as the code has it.  [track] computes the key from the caller's
    overrides as passed, before the registered rule is merged in; that key
    is the one registered, published to and returned.  The merge (caller
    values winning) only decides the overrides stored in the entry and
    appended to the call. *)
Theorem track_key_from_caller_overrides (t : trackable) (passed : option object)
    (s : world) :
  let callerOverrides := default [] passed in
  let key := functionKey X (t_contractAddress t) (t_functionName t) (t_args t)
               callerOverrides in
  let effective := effectiveOverrides X t callerOverrides in
  let sent := CallRaw (t_rawFunction t) (t_contract t) (t_args t ++ [VObj effective]) in
  let s' := (track X t passed s).2 in
  (track X t passed s).1 = Ok key
  ∧ tf_get key (trackedFunctions s')
    = Some {| contractAddress := t_contractAddress t;
              entry_rawFunction := t_rawFunction t;
              entry_args := t_args t;
              entry_overrides := effective |}
  ∧ calls s' = calls s ++ [sent]
  ∧ published s'
    = published s ++ match chain X (length (calls s)) sent with
                     | Some results => [(key, results)]
                     | None => []
                     end
  ∧ (∀ registered k,
       getOverrides X (t_functionName t) (t_contract t) = Some registered →
       obj_get k effective
       = match obj_get k (spread1 (Some callerOverrides)) with
         | Some v => Some v
         | None => obj_get k (spread1 (Some registered))
         end).
Proof.
  intros callerOverrides key effective sent s'.
  assert (Hrun : track X t passed s
    = (Ok key,
       match chain X (length (calls s)) sent with
       | Some results =>
           add_published key results
             (add_call sent
                (set_trackedFunctions
                   (tf_set key {| contractAddress := t_contractAddress t;
                                  entry_rawFunction := t_rawFunction t;
                                  entry_args := t_args t;
                                  entry_overrides := effective |}) s))
       | None =>
           add_call sent
             (set_trackedFunctions
                (tf_set key {| contractAddress := t_contractAddress t;
                               entry_rawFunction := t_rawFunction t;
                               entry_args := t_args t;
                               entry_overrides := effective |}) s)
       end)).
  { unfold track, invoke. monad.
    fold callerOverrides. fold key. fold (effectiveOverrides X t callerOverrides).
    fold effective. fold sent.
    destruct (chain X (length (calls s)) sent); reflexivity. }
  subst s'. rewrite Hrun. simpl.
  split; [reflexivity|].
  destruct (chain X (length (calls s)) sent); simpl;
    (split; [apply tf_get_set|]);
    (split; [reflexivity|]);
    (split; [try reflexivity; rewrite app_nil_r; reflexivity|]);
    intros registered k Hreg; subst effective; unfold effectiveOverrides, hasOverrides;
    rewrite Hreg; apply spread2_lookup.
Qed.

End Tracking.

(** C2, as stated, fails: a rule is registered for [transfer] of the token,
    the caller passes no overrides, and the key [track] returns is not the
    key of the effective (merged) overrides. *)
Lemma track_key_not_from_effective_overrides :
  hasOverrides demo "transfer" contract_demo = true ∧
  (track demo trackable_demo None world_demo).1
  ≠ Ok (functionKey demo token_demo "transfer" [VStr account_demo; VNum 5]
          (effectiveOverrides demo trackable_demo [])).
Proof. split; [reflexivity|]. vm_compute. intros H. discriminate H. Qed.

(** ** The two call paths of a handle *)

Section CallPaths.
Context (X : externals).

Lemma handle_functions_Some h name f :
  handle_functions X h name = Some f →
  f = generateTrackableFunction X (h_address h) name
        {| rf_name := name; rf_owner := h_raw h |}.
Proof.
  unfold handle_functions.
  destruct (existsb _ _); intros H; [injection H as <-; reflexivity | discriminate].
Qed.

(** C4, as the code has it.  A property read on the proxy, for a name that
    the binding has and that is not one of the three addons, gives the
    binding's member when no rule is registered and the override-injecting
    wrapper when one is.  The members of [functions] are another path: they
    call the raw function of the cached binding with the caller's arguments
    as they are, rule or no rule. *)
Theorem wrapped_call_paths (h : handle) (args : list value) (s : world) :
  (∀ prop,
     prop ≠ "raw" → prop ≠ "trackBalance" → prop ≠ "functions" →
     binding_has (h_raw h) prop = true →
     handler_get X h prop
     = (if hasOverrides X prop (h_raw h)
        then OverrideWrapped prop (h_raw h)
        else BindingMember prop (h_raw h))
     ∧ call_property X h prop args s
       = (if hasOverrides X prop (h_raw h)
          then overrideWrapped X prop (h_raw h) args s
          else call_binding X (h_raw h) prop args s))
  ∧ (∀ name f cached,
       handle_functions X h name = Some f →
       contracts s !! h_address h = Some cached →
       let raw := {| rf_name := name; rf_owner := h_raw h |} in
       let c := CallRaw raw (h_raw cached) args in
       f args s
       = (Ok {| t_contractAddress := h_address h;
                t_functionName := name;
                t_rawFunction := raw;
                t_contract := h_raw cached;
                t_args := args;
                t_result := chain X (length (calls s)) c |},
          add_call c s)).
Proof.
  split.
  - intros prop Hraw Htb Hfn Hhas.
    assert (Hget : handler_get X h prop
                   = (if hasOverrides X prop (h_raw h)
                      then OverrideWrapped prop (h_raw h)
                      else BindingMember prop (h_raw h))).
    { unfold handler_get.
      apply String.eqb_neq in Hraw, Htb, Hfn. rewrite Hraw, Htb, Hfn, Hhas.
      simpl. destruct (hasOverrides X prop (h_raw h)); reflexivity. }
    split; [exact Hget|].
    unfold call_property. rewrite Hget.
    destruct (hasOverrides X prop (h_raw h)); reflexivity.
  - intros name f cached Hf Hc raw c.
    apply handle_functions_Some in Hf as ->.
    unfold generateTrackableFunction, invoke. monad. rewrite Hc. reflexivity.
Qed.

(** C10. A handle built with an explicit ABI for an address the cache does
    not hold: the cache still lacks the address afterwards, so every member
    of the handle's [functions] throws on [contracts[contractAddress].raw]
    and no call reaches a binding. *)
Theorem explicit_abi_functions_throw (a : string) (explicit : abi) (s : world) :
  isAddress X a = true →
  contracts s !! a = None →
  ∃ h s',
    observableContract X (Some explicit) a s = (Ok h, s')
    ∧ h_raw h = {| b_address := a; b_interface := explicit; b_signer := signer s |}
    ∧ contracts s' !! a = None
    ∧ ∀ name f args,
        handle_functions X h name = Some f →
        f args s'
        = (Throw (TypeError "contracts[contractAddress] is undefined"), s').
Proof.
  intros Ha Hnone.
  eexists _, _. split.
  { unfold observableContract, validateIsAddress. monad. rewrite Ha. simpl.
    rewrite Hnone. reflexivity. }
  split; [reflexivity|]. split; [exact Hnone|].
  intros name f args Hf.
  apply handle_functions_Some in Hf as ->. simpl.
  unfold generateTrackableFunction. monad. rewrite Hnone. reflexivity.
Qed.

End CallPaths.

(** C4, as stated, fails on the [functions] path: a rule is registered for
    [transfer], yet [handle.functions.transfer(account, 5)] calls the raw
    function with the two arguments alone, where override injection sends
    the registered overrides as a third. *)
Lemma functions_member_skips_override_injection :
  hasOverrides demo "transfer" contract_demo = true ∧
  match handle_functions demo handle_demo "transfer" with
  | Some f =>
      calls (f [VStr account_demo; VNum 5] world_demo).2
      = [CallRaw {| rf_name := "transfer"; rf_owner := contract_demo |}
           contract_demo [VStr account_demo; VNum 5]]
      ∧ calls (f [VStr account_demo; VNum 5] world_demo).2
        ≠ calls (overrideWrapped demo "transfer" contract_demo
                   [VStr account_demo; VNum 5] world_demo).2
  | None => False
  end.
Proof.
  split; [reflexivity|]. vm_compute. split; [reflexivity|].
  intros H. discriminate H.
Qed.

Lemma wrapped_call_paths_witness :
  call_property demo handle_demo "transfer" [VStr account_demo; VNum 5] world_demo
  = overrideWrapped demo "transfer" contract_demo [VStr account_demo; VNum 5] world_demo
  ∧ call_property demo handle_demo "balanceOf" [VStr account_demo] world_demo
    = call_binding demo contract_demo "balanceOf" [VStr account_demo] world_demo.
Proof.
  destruct (wrapped_call_paths demo handle_demo [VStr account_demo; VNum 5] world_demo)
    as [Hprop _].
  destruct (wrapped_call_paths demo handle_demo [VStr account_demo] world_demo)
    as [Hprop' _].
  split.
  - destruct (Hprop "transfer") as [_ H];
      [discriminate | discriminate | discriminate | reflexivity | exact H].
  - destruct (Hprop' "balanceOf") as [_ H];
      [discriminate | discriminate | discriminate | reflexivity | exact H].
Defined.

Lemma explicit_abi_functions_throw_witness :
  isAddress demo token_demo = true ∧
  contracts (initial None) !! token_demo = None ∧
  ∃ h s',
    observableContract demo (Some erc20_demo) token_demo (initial None) = (Ok h, s')
    ∧ h_raw h = {| b_address := token_demo; b_interface := erc20_demo;
                   b_signer := signer (initial None) |}
    ∧ contracts s' !! token_demo = None
    ∧ ∀ name f args,
        handle_functions demo h name = Some f →
        f args s'
        = (Throw (TypeError "contracts[contractAddress] is undefined"), s').
Proof.
  split; [reflexivity|]. split; [reflexivity|].
  apply (explicit_abi_functions_throw demo token_demo erc20_demo (initial None));
    reflexivity.
Defined.

(** ** Preservation through the monad *)

Section Preserves.
Context (I : world → Prop).

Lemma preserves_ret {A} (a : A) : preserves I (mret a).
Proof. intros s Hs. exact Hs. Qed.

Lemma preserves_bind {A B} (m : M A) (f : A → M B) :
  preserves I m → (∀ a, preserves I (f a)) → preserves I (m ≫= f).
Proof.
  intros Hm Hf s Hs. specialize (Hm s Hs). monad.
  destruct (m s) as [[a|e] s1]; simpl in *; [apply Hf, Hm | exact Hm].
Qed.

Lemma preserves_gets {A} (f : world → A) : preserves I (gets f).
Proof. intros s Hs. exact Hs. Qed.

Lemma preserves_throw {A} (e : error) : preserves I (throw (A := A) e).
Proof. intros s Hs. exact Hs. Qed.

Lemma preserves_lift {A} (o : outcome A) : preserves I (lift o).
Proof. intros s Hs. exact Hs. Qed.

Lemma preserves_modify (f : world → world) :
  (∀ s, I s → I (f s)) → preserves I (modify f).
Proof. intros Hf s Hs. apply Hf, Hs. Qed.

End Preserves.

Ltac preserve :=
  cbv zeta;
  repeat first
    [ solve [auto]
    | apply preserves_ret
    | apply preserves_gets
    | apply preserves_throw
    | apply preserves_lift
    | apply preserves_modify; solve [auto]
    | apply preserves_bind; [|intros ?]
    | match goal with
      | |- preserves _ (match ?x with _ => _ end) => destruct x
      | |- preserves _ (if ?b then _ else _) => destruct b
      end ].

Section Stable.
Context (X : externals) (I : world → Prop).

Hypothesis I_call : ∀ c s, I s → I (add_call c s).
Hypothesis I_console : ∀ l s, I s → I (add_console l s).
Hypothesis I_published : ∀ k v s, I s → I (add_published k v s).
Hypothesis I_get : ∀ abi a, preserves I (observableContract X abi a).

Lemma invoke_preserves c : preserves I (invoke X c).
Proof. unfold invoke. preserve. Qed.

Lemma call_binding_preserves contract prop args :
  preserves I (call_binding X contract prop args).
Proof. unfold call_binding. pose proof invoke_preserves. preserve. Qed.

Lemma overrideWrapped_preserves prop contract args :
  preserves I (overrideWrapped X prop contract args).
Proof.
  unfold overrideWrapped. pose proof call_binding_preserves. preserve.
Qed.

Lemma call_property_preserves h prop args :
  preserves I (call_property X h prop args).
Proof.
  unfold call_property, call_member.
  pose proof call_binding_preserves. pose proof overrideWrapped_preserves.
  preserve.
Qed.

Lemma refreshBalance_preserves key : preserves I (refreshBalance X key).
Proof.
  unfold refreshBalance. pose proof call_binding_preserves. preserve.
Qed.

Lemma refreshFunction_preserves key : preserves I (refreshFunction X key).
Proof.
  unfold refreshFunction. pose proof invoke_preserves. preserve.
Qed.

Lemma settle_preserves (m : M dispatch) s :
  preserves I m → I s → I (settle m s).2.
Proof.
  intros Hm Hs. specialize (Hm s Hs). unfold settle.
  destruct (m s) as [[d|e] s1]; exact Hm.
Qed.

Lemma forEach_preserves callback keys s :
  (∀ key, preserves I (callback key)) → I s → I (forEach callback keys s).2.
Proof.
  intros Hcb. revert s. induction keys as [|key keys IH]; intros s Hs; simpl.
  - exact Hs.
  - pose proof (settle_preserves (callback key) s (Hcb key) Hs) as H1.
    destruct (settle (callback key) s) as [d s1]. simpl in H1.
    specialize (IH s1 H1).
    destruct (forEach callback keys s1) as [ds s2]. exact IH.
Qed.

Hypothesis I_cycle : ∀ c s, I s → I (add_cycle c s).

Lemma updateOnBlock_preserves s : I s → I (updateOnBlock X s).
Proof.
  intros Hs. unfold updateOnBlock.
  pose proof (forEach_preserves (refreshBalance X)
                (trackedBalances (add_console (LogRunning (clock s)) s))
                (add_console (LogRunning (clock s)) s)
                refreshBalance_preserves (I_console _ _ Hs)) as H1.
  destruct (forEach (refreshBalance X) _ _) as [bs s1]. simpl in H1.
  pose proof (forEach_preserves (refreshFunction X)
                (map fst (trackedFunctions s1)) s1
                refreshFunction_preserves H1) as H2.
  destruct (forEach (refreshFunction X) _ _) as [fs s2]. simpl in H2.
  apply I_cycle, H2.
Qed.

Hypothesis I_trackedBalances : ∀ f s, I s → I (set_trackedBalances f s).
Hypothesis I_trackedFunctions : ∀ f s, I s → I (set_trackedFunctions f s).

Lemma generateTrackableFunction_preserves a name raw args :
  preserves I (generateTrackableFunction X a name raw args).
Proof.
  unfold generateTrackableFunction. pose proof invoke_preserves. preserve.
Qed.

Lemma track_preserves t passed : preserves I (track X t passed).
Proof. unfold track. pose proof invoke_preserves. preserve. Qed.

Lemma generateTrackBalanceFunction_preserves a account :
  preserves I (generateTrackBalanceFunction X a account).
Proof.
  unfold generateTrackBalanceFunction, validateIsAddress.
  pose proof call_property_preserves. preserve.
Qed.

Hypothesis I_reset : ∀ s, I s → I (set_contracts (λ _, ∅) s).

(** Every event that is not the scheduler's keeps the property. *)
Lemma api_step_preserves e s :
  (∀ n, e ≠ BlockNumber n) → (∀ n, e ≠ BlockNumberBump n) → (∀ ms, e ≠ Elapse ms) →
  I s → I (step X e s).
Proof.
  intros Hb Hbb He Hs. destruct e as [n|n|ms|abi a| |a account|h name args o|h prop args];
    simpl.
  - destruct (Hb n); reflexivity.
  - destruct (Hbb n); reflexivity.
  - destruct (He ms); reflexivity.
  - apply I_get, Hs.
  - apply I_reset, Hs.
  - apply generateTrackBalanceFunction_preserves, Hs.
  - destruct (handle_functions X h name) as [f|] eqn:Hf; [|exact Hs].
    apply handle_functions_Some in Hf as ->.
    revert s Hs. change (preserves I
      (generateTrackableFunction X (h_address h) name
         {| rf_name := name; rf_owner := h_raw h |} args ≫= λ t, track X t o)).
    pose proof generateTrackableFunction_preserves. pose proof track_preserves.
    preserve.
  - apply call_property_preserves, Hs.
Qed.

End Stable.

(** ** What the operations leave alone *)

Section Frames.
Context (X : externals).

Lemma observableContract_stable (I : world → Prop) :
  (∀ l s, I s → I (add_console l s)) →
  (∀ n s, I s → I (set_nextHandle n s)) →
  (∀ f s, I s → I (set_contracts f s)) →
  ∀ abi a, preserves I (observableContract X abi a).
Proof.
  intros Hc Hn Hs abi a. unfold observableContract, validateIsAddress. preserve.
Qed.

Lemma observableContract_scheduler abi a s :
  scheduler (observableContract X abi a s).2 = scheduler s.
Proof.
  apply (observableContract_stable (λ s', scheduler s' = scheduler s)); auto.
Qed.

Lemma updateOnBlock_scheduler s : scheduler (updateOnBlock X s) = scheduler s.
Proof.
  apply (updateOnBlock_preserves X (λ s', scheduler s' = scheduler s)); auto.
  intros abi a s' Hs'. rewrite observableContract_scheduler. exact Hs'.
Qed.

Lemma api_step_scheduler e s :
  (∀ n, e ≠ BlockNumber n) → (∀ n, e ≠ BlockNumberBump n) → (∀ ms, e ≠ Elapse ms) →
  scheduler (step X e s) = scheduler s.
Proof.
  intros Hb Hbb He.
  apply (api_step_preserves X (λ s', scheduler s' = scheduler s)); auto.
  intros abi a s' Hs'. rewrite observableContract_scheduler. exact Hs'.
Qed.

Lemma observableContract_tracked abi a s :
  tracked (observableContract X abi a s).2 = tracked s.
Proof.
  apply (observableContract_stable (λ s', tracked s' = tracked s)); auto.
Qed.

Lemma forEach_refreshBalance_tracked keys s :
  tracked (forEach (refreshBalance X) keys s).2 = tracked s.
Proof.
  apply (forEach_preserves (λ s', tracked s' = tracked s)); [|reflexivity].
  apply refreshBalance_preserves; auto.
  intros abi a s' Hs'. rewrite observableContract_tracked. exact Hs'.
Qed.

Lemma forEach_refreshFunction_tracked keys s :
  tracked (forEach (refreshFunction X) keys s).2 = tracked s.
Proof.
  apply (forEach_preserves (λ s', tracked s' = tracked s)); [|reflexivity].
  apply refreshFunction_preserves; auto.
  intros abi a s' Hs'. rewrite observableContract_tracked. exact Hs'.
Qed.

Lemma forEach_keys callback keys s :
  map fst (forEach callback keys s).1 = keys.
Proof.
  revert s. induction keys as [|key keys IH]; intros s; simpl; [reflexivity|].
  destruct (settle (callback key) s) as [d s1].
  specialize (IH s1). destruct (forEach callback keys s1) as [ds s2].
  simpl in *. rewrite IH. reflexivity.
Qed.

(** A refresh cycle adds one entry to [cycles], with one callback for each
    tracked key, and leaves the tracked sets as they were. *)
Lemma updateOnBlock_cycle s :
  ∃ cycle,
    cycles (updateOnBlock X s) = cycles s ++ [cycle]
    ∧ map fst cycle = trackedKeys s
    ∧ trackedBalances (updateOnBlock X s) = trackedBalances s
    ∧ trackedFunctions (updateOnBlock X s) = trackedFunctions s.
Proof.
  unfold updateOnBlock.
  set (s0 := add_console (LogRunning (clock s)) s).
  pose proof (forEach_refreshBalance_tracked (trackedBalances s0) s0) as T1.
  pose proof (forEach_keys (refreshBalance X) (trackedBalances s0) s0) as K1.
  destruct (forEach (refreshBalance X) (trackedBalances s0) s0) as [bs s1].
  pose proof (forEach_refreshFunction_tracked (map fst (trackedFunctions s1)) s1) as T2.
  pose proof (forEach_keys (refreshFunction X) (map fst (trackedFunctions s1)) s1) as K2.
  destruct (forEach (refreshFunction X) (map fst (trackedFunctions s1)) s1) as [fs s2].
  simpl in *. unfold tracked in T1, T2.
  injection T1 as Tb1 Tf1 Tc1. injection T2 as Tb2 Tf2 Tc2.
  exists (bs ++ fs). simpl.
  rewrite Tc2, Tc1, Tb2, Tb1, Tf2, Tf1. repeat split.
  rewrite map_app, K1, K2, Tf1. reflexivity.
Qed.

End Frames.

(** ** The scheduler *)

Section Scheduler.
Context (X : externals).

Lemma one_timer_scheduler s s' :
  scheduler s' = scheduler s → one_timer s → one_timer s'.
Proof.
  unfold scheduler, one_timer. intros H. injection H as Hp Ht Hn _.
  rewrite Hp, Ht, Hn. tauto.
Qed.

Lemma clearTimeout_pending s :
  one_timer s → clearTimeout (blockNumberPid s).2 (timers s) = [].
Proof.
  intros [Hnil | (id & due & Ht & Hp & _)].
  - rewrite Hnil. destruct (blockNumberPid s).2; reflexivity.
  - rewrite Ht, Hp. simpl. rewrite filter_cons_False; [reflexivity|].
    simpl. intros H. apply H. reflexivity.
Qed.

(** Arming cancels what was pending and leaves the new timeout alone. *)
Lemma arm_spec n s :
  one_timer s →
  timers (arm n s) = [(nextTimer s, (clock s + 500)%Z)]
  ∧ blockNumberPid (arm n s) = (n, Some (nextTimer s))
  ∧ nextTimer (arm n s) = S (nextTimer s)
  ∧ (∀ t, t ∈ timers s → t ∉ timers (arm n s)).
Proof.
  intros Hone. unfold arm. simpl. rewrite (clearTimeout_pending s Hone). simpl.
  repeat split.
  intros t Ht Hin. apply list_elem_of_singleton in Hin. subst t.
  destruct Hone as [Hnil | (id & due & Hts & _ & Hlt)].
  - rewrite Hnil in Ht. apply elem_of_nil in Ht. exact Ht.
  - rewrite Hts in Ht. apply list_elem_of_singleton in Ht.
    injection Ht as Hid _. lia.
Qed.

Lemma one_timer_arm n s : one_timer s → one_timer (arm n s).
Proof.
  intros Hone. destruct (arm_spec n s Hone) as (Ht & Hp & Hn & _).
  right. exists (nextTimer s), (clock s + 500)%Z.
  rewrite Ht, Hp, Hn. repeat split. simpl. lia.
Qed.

Lemma onBlockNumber_beyond n s :
  (lastTarget s + 4 < n)%Z →
  onBlockNumber n s = arm n (add_console (LogBlockNumber n) s).
Proof.
  intros H. unfold onBlockNumber. simpl.
  destruct (decide _) as [_|Hn]; [reflexivity|]. exfalso. apply Hn, H.
Qed.

Lemma onBlockNumber_within n s :
  (n ≤ lastTarget s + 4)%Z →
  onBlockNumber n s = add_console (LogBlockNumber n) s.
Proof.
  intros H. unfold onBlockNumber. simpl.
  destruct (decide _) as [Hlt|_]; [|reflexivity]. unfold lastTarget in H. lia.
Qed.

(** Timeouts that fire run one refresh cycle each and change nothing of
    the scheduler. *)
Lemma fire_scheduler (due : list (nat * Z)) s :
  scheduler (fold_left (λ acc _, updateOnBlock X acc) due s) = scheduler s.
Proof.
  revert s. induction due as [|t due IH]; intros s; simpl; [reflexivity|].
  rewrite IH. apply updateOnBlock_scheduler.
Qed.

Lemma elapse_scheduler ms s :
  scheduler (elapse X ms s)
  = (blockNumberPid s,
     filter (λ t, ¬ (t.2 ≤ clock s + ms)%Z) (timers s),
     nextTimer s, (clock s + ms)%Z).
Proof. unfold elapse. rewrite fire_scheduler. reflexivity. Qed.

Lemma one_timer_elapse ms s : one_timer s → one_timer (elapse X ms s).
Proof.
  intros Hone. pose proof (elapse_scheduler ms s) as H.
  unfold scheduler in H. injection H as Hp Ht Hn _.
  unfold one_timer. rewrite Hp, Ht, Hn.
  destruct Hone as [Hnil | (id & due & Hts & Hpid & Hlt)].
  - left. rewrite Hnil. reflexivity.
  - rewrite Hts.
    destruct (decide (¬ (due ≤ clock s + ms)%Z)) as [Hd|Hd].
    + right. exists id, due. rewrite filter_cons_True by exact Hd. auto.
    + left. rewrite filter_cons_False by exact Hd. reflexivity.
Qed.

Lemma one_timer_step e s : one_timer s → one_timer (step X e s).
Proof.
  intros Hone.
  destruct e as [n|n|ms|abi a| |a account|h name args o|h prop args];
    try (apply (one_timer_scheduler s); [|exact Hone];
         apply api_step_scheduler; intros; discriminate).
  - simpl. destruct (decide (lastTarget s + 4 < n)%Z) as [Hlt|Hge].
    + rewrite onBlockNumber_beyond by exact Hlt. apply one_timer_arm, Hone.
    + rewrite onBlockNumber_within by lia. exact Hone.
  - apply one_timer_arm, Hone.
  - apply one_timer_elapse, Hone.
Qed.

Lemma one_timer_run es s : one_timer s → one_timer (run X es s).
Proof.
  revert s. induction es as [|e es IH]; intros s Hs; simpl; [exact Hs|].
  apply IH, one_timer_step, Hs.
Qed.

Lemma one_timer_reachable es sg : one_timer (run X es (initial sg)).
Proof. apply one_timer_run. left. reflexivity. Qed.

(** With nothing pending, time passes without a refresh. *)
Lemma elapse_idle ms s : timers s = [] → cycles (elapse X ms s) = cycles s.
Proof. intros H. unfold elapse. rewrite H. reflexivity. Qed.

(** One timeout pending and due: exactly one refresh cycle runs, over the
    keys tracked then, and nothing stays pending. *)
Lemma elapse_due ms s id due :
  timers s = [(id, due)] → (due ≤ clock s + ms)%Z →
  ∃ cycle,
    cycles (elapse X ms s) = cycles s ++ [cycle]
    ∧ map fst cycle = trackedKeys s
    ∧ timers (elapse X ms s) = [].
Proof.
  intros Ht Hdue.
  set (s1 := set_clock (clock s + ms)
               (set_scheduler (blockNumberPid s) [] (nextTimer s) s)).
  assert (Hd : filter (λ t : nat * Z, (t.2 ≤ clock s + ms)%Z) [(id, due)]
               = [(id, due)]).
  { rewrite filter_cons_True by exact Hdue. reflexivity. }
  assert (Hr : filter (λ t : nat * Z, ¬ (t.2 ≤ clock s + ms)%Z) [(id, due)] = []).
  { rewrite filter_cons_False; [reflexivity|]. simpl. tauto. }
  assert (He : elapse X ms s = updateOnBlock X s1).
  { unfold elapse. rewrite Ht, Hd, Hr. reflexivity. }
  rewrite He.
  destruct (updateOnBlock_cycle X s1) as (cycle & Hc & Hk & _).
  exists cycle. split; [exact Hc|]. split; [exact Hk|].
  pose proof (updateOnBlock_scheduler X s1) as Hs.
  unfold scheduler in Hs. injection Hs as _ Hts _ _. exact Hts.
Qed.

(** Advances that stay within four blocks of the last target only log. *)
Lemma burst_ignored ns s :
  Forall (λ n, (n ≤ lastTarget s + 4)%Z) ns →
  scheduler (run X (map BlockNumber ns) s) = scheduler s
  ∧ cycles (run X (map BlockNumber ns) s) = cycles s.
Proof.
  revert s. induction ns as [|n ns IH]; intros s Hall; simpl; [split; reflexivity|].
  apply Forall_cons in Hall as [Hn Hall].
  rewrite onBlockNumber_within by exact Hn.
  destruct (IH (add_console (LogBlockNumber n) s) Hall) as [Hs Hc].
  split; [exact Hs | exact Hc].
Qed.

(** C7. In every state the module can reach, a bump event, whatever its
    block number, cancels the pending timeout, arms a new one for 500ms
    later and records the bump's block number; the new timeout is then the
    only one pending, so 500ms of silence run exactly one refresh cycle. *)
Theorem bump_always_rearms (es : list event) (sg : option string) (n : Z) :
  let s := run X es (initial sg) in
  let s' := step X (BlockNumberBump n) s in
  timers s' = [(nextTimer s, (clock s + 500)%Z)]
  ∧ blockNumberPid s' = (n, Some (nextTimer s))
  ∧ (∀ t, t ∈ timers s → t ∉ timers s')
  ∧ (∀ es', one_timer (run X es' s'))
  ∧ (∀ ms, (ms < 500)%Z → refreshCount (step X (Elapse ms) s') = refreshCount s)
  ∧ (∀ ms, (500 ≤ ms)%Z →
       refreshCount (step X (Elapse ms) s') = S (refreshCount s)
       ∧ timers (step X (Elapse ms) s') = []).
Proof.
  intros s s'. pose proof (one_timer_reachable es sg) as Hone. fold s in Hone.
  destruct (arm_spec n s Hone) as (Ht & Hp & Hn & Hold).
  change (step X (BlockNumberBump n) s) with (arm n s) in s'. subst s'.
  split; [exact Ht|]. split; [exact Hp|]. split; [exact Hold|].
  split; [|split].
  - intros es'. apply one_timer_run, one_timer_arm, Hone.
  - intros ms Hms. simpl. unfold refreshCount, elapse. rewrite Ht.
    rewrite filter_cons_False by (simpl; lia). reflexivity.
  - intros ms Hms. simpl.
    destruct (elapse_due ms (arm n s) _ _ Ht) as (cycle & Hc & _ & Hts).
    { simpl. lia. }
    split; [|exact Hts].
    unfold refreshCount. rewrite Hc, length_app. simpl.
    change (cycles (arm n s)) with (cycles s). lia.
Qed.

End Scheduler.

(** ** The handle cache *)

Section Cache.
Context (X : externals).

Lemma observableContract_hit a h s :
  isAddress X a = true → contracts s !! a = Some h →
  observableContract X None a s = (Ok h, s).
Proof.
  intros Ha Hc. unfold observableContract, validateIsAddress. monad.
  rewrite Ha. simpl. rewrite Hc. reflexivity.
Qed.

Lemma observableContract_miss a s :
  isAddress X a = true → contracts s !! a = None →
  let h := {| h_id := nextHandle s; h_address := a;
              h_raw := {| b_address := a;
                          b_interface := default (erc20 X) (findAbi X a);
                          b_signer := signer s |} |} in
  observableContract X None a s
  = (Ok h, set_contracts (λ c, <[a := h]> c)
             (set_nextHandle (S (nextHandle s)) (resolving X a s))).
Proof.
  intros Ha Hc. unfold observableContract, validateIsAddress, resolving. monad.
  rewrite Ha. simpl. rewrite Hc. destruct (findAbi X a); reflexivity.
Qed.

Lemma observableContract_explicit a explicit s :
  isAddress X a = true →
  let h := {| h_id := nextHandle s; h_address := a;
              h_raw := {| b_address := a; b_interface := explicit;
                          b_signer := signer s |} |} in
  observableContract X (Some explicit) a s
  = (Ok h, set_nextHandle (S (nextHandle s)) s).
Proof.
  intros Ha. unfold observableContract, validateIsAddress. monad.
  rewrite Ha. simpl. destruct (contracts s !! a); reflexivity.
Qed.

Lemma observableContract_invalid abi a s :
  isAddress X a = false →
  observableContract X abi a s = (Throw (InvalidAddress a), s).
Proof.
  intros Ha. unfold observableContract, validateIsAddress. monad.
  rewrite Ha. reflexivity.
Qed.

Lemma observableContract_cache_fresh abi a :
  preserves cache_fresh (observableContract X abi a).
Proof.
  intros s Hs.
  destruct (isAddress X a) eqn:Ha;
    [|rewrite observableContract_invalid by exact Ha; exact Hs].
  destruct abi as [explicit|].
  - rewrite observableContract_explicit by exact Ha. simpl.
    intros a' h' Hl. specialize (Hs a' h' Hl). simpl. lia.
  - destruct (contracts s !! a) as [h|] eqn:Hc.
    + rewrite (observableContract_hit a h) by assumption. exact Hs.
    + rewrite observableContract_miss by assumption. simpl.
      assert (Hres : contracts (resolving X a s) = contracts s
                     ∧ nextHandle (resolving X a s) = nextHandle s).
      { unfold resolving. destruct (findAbi X a); split; reflexivity. }
      destruct Hres as [Hrc Hrn].
      intros a' h'. simpl. rewrite Hrc, lookup_insert.
      case_decide.
      * intros H'. injection H' as <-. simpl. lia.
      * intros Hl. specialize (Hs a' h' Hl). lia.
Qed.

Lemma updateOnBlock_cache_fresh s :
  cache_fresh s → cache_fresh (updateOnBlock X s).
Proof.
  apply (updateOnBlock_preserves X cache_fresh); try (intros; assumption).
  apply observableContract_cache_fresh.
Qed.

Lemma api_step_cache_fresh e s :
  (∀ n, e ≠ BlockNumber n) → (∀ n, e ≠ BlockNumberBump n) → (∀ ms, e ≠ Elapse ms) →
  cache_fresh s → cache_fresh (step X e s).
Proof.
  apply (api_step_preserves X cache_fresh); try (intros; assumption).
  - apply observableContract_cache_fresh.
  - intros s' _ a' h' Hl. simpl in Hl. rewrite lookup_empty in Hl.
    discriminate Hl.
Qed.

Lemma fire_cache_fresh (due : list (nat * Z)) s :
  cache_fresh s → cache_fresh (fold_left (λ acc _, updateOnBlock X acc) due s).
Proof.
  revert s. induction due as [|t due IH]; intros s Hs; simpl; [exact Hs|].
  apply IH, updateOnBlock_cache_fresh, Hs.
Qed.

Lemma cache_fresh_step e s : cache_fresh s → cache_fresh (step X e s).
Proof.
  intros Hs.
  destruct e as [n|n|ms|abi a| |a account|h name args o|h prop args];
    try (apply api_step_cache_fresh; [intros; discriminate ..|exact Hs]).
  - simpl. unfold onBlockNumber. destruct (decide _); exact Hs.
  - exact Hs.
  - simpl. unfold elapse. apply fire_cache_fresh. exact Hs.
Qed.

Lemma cache_fresh_reachable es sg : cache_fresh (run X es (initial sg)).
Proof.
  assert (H : ∀ s, cache_fresh s → cache_fresh (run X es s)).
  { induction es as [|e es IH]; intros s Hs; simpl; [exact Hs|].
    apply IH, cache_fresh_step, Hs. }
  apply H. intros a h Hl. simpl in Hl. rewrite lookup_empty in Hl. discriminate Hl.
Qed.

(** C3. In every state the module can reach and for every valid address:
    two calls without an ABI, one after the other, return the same proxy
    (the second leaves the state as it is); a call with an explicit ABI
    returns a proxy allocated by that call, different from every cached
    one, and leaves the cache as it was. *)
Theorem handle_cache_identity (es : list event) (sg : option string) (a : string) :
  isAddress X a = true →
  let s := run X es (initial sg) in
  (∃ h s1,
     observableContract X None a s = (Ok h, s1)
     ∧ observableContract X None a s1 = (Ok h, s1)
     ∧ contracts s1 !! a = Some h)
  ∧ (∀ explicit, ∃ h s1,
       observableContract X (Some explicit) a s = (Ok h, s1)
       ∧ h_id h = nextHandle s
       ∧ b_interface (h_raw h) = explicit
       ∧ (∀ a' cached, contracts s !! a' = Some cached →
            h_id cached ≠ h_id h ∧ cached ≠ h)
       ∧ contracts s1 = contracts s).
Proof.
  intros Ha s. split.
  - destruct (contracts s !! a) as [h|] eqn:Hc.
    + exists h, s. rewrite (observableContract_hit a h s Ha Hc). auto.
    + eexists _, _. rewrite (observableContract_miss a s Ha Hc).
      split; [reflexivity|].
      split; [|simpl; apply lookup_insert_eq].
      apply observableContract_hit; [exact Ha|]. simpl. apply lookup_insert_eq.
  - intros explicit. eexists _, _.
    rewrite (observableContract_explicit a explicit s Ha).
    split; [reflexivity|]. simpl. split; [reflexivity|]. split; [reflexivity|].
    split; [|reflexivity].
    intros a' cached Hl.
    pose proof (cache_fresh_reachable es sg a' cached Hl) as Hlt. fold s in Hlt.
    assert (Hne : h_id cached ≠ nextHandle s) by lia.
    split; [exact Hne|]. intros ->. apply Hne. reflexivity.
Qed.

End Cache.

(** ** The refresh cycle *)

Section Refresh.
Context (X : externals).

Lemma updateOnBlock_unfold s :
  let s0 := add_console (LogRunning (clock s)) s in
  let b := forEach (refreshBalance X) (trackedBalances s) s0 in
  let f := forEach (refreshFunction X) (map fst (trackedFunctions s)) b.2 in
  updateOnBlock X s = add_cycle (b.1 ++ f.1) f.2.
Proof.
  intros s0 b f. unfold updateOnBlock. fold s0.
  change (trackedBalances s0) with (trackedBalances s). fold b.
  pose proof (forEach_refreshBalance_tracked X (trackedBalances s) s0) as T.
  fold b in T. unfold tracked in T. injection T as _ Tf _.
  subst f. destruct b as [bs s1]. simpl in *. rewrite Tf.
  destruct (forEach (refreshFunction X) (map fst (trackedFunctions s)) s1).
  reflexivity.
Qed.

(** What holds of one callback's result holds of its entry in the cycle. *)
Lemma forEach_elem callback keys key (P : dispatch → Prop) (J : world → Prop) :
  (∀ k, preserves J (callback k)) →
  (∀ s, J s → P (settle (callback key) s).1) →
  key ∈ keys →
  ∀ s, J s → ∃ d, (key, d) ∈ (forEach callback keys s).1 ∧ P d.
Proof.
  intros HJ HP. induction keys as [|k keys IH]; intros Hin s Hs.
  - apply elem_of_nil in Hin. destruct Hin.
  - simpl.
    pose proof (settle_preserves J (callback k) s (HJ k) Hs) as HJ1.
    pose proof (HP s Hs) as HP1.
    destruct (decide (key = k)) as [->|Hne].
    + destruct (settle (callback k) s) as [d s1].
      destruct (forEach callback keys s1) as [ds s2]. simpl in *.
      exists d. split; [left | exact HP1].
    + apply elem_of_cons in Hin as [Heq|Hin]; [contradiction|].
      destruct (settle (callback k) s) as [d s1]. simpl in HJ1.
      destruct (IH Hin s1 HJ1) as (d' & Hd' & HPd').
      destruct (forEach callback keys s1) as [ds s2]. simpl in *.
      exists d'. split; [right; exact Hd' | exact HPd'].
Qed.

(** What one callback establishes, and every callback keeps, holds when
    the cycle is over. *)
Lemma forEach_establishes callback keys key (Q J : world → Prop) :
  (∀ k, preserves J (callback k)) →
  (∀ k, preserves Q (callback k)) →
  (∀ s, J s → Q (settle (callback key) s).2) →
  key ∈ keys →
  ∀ s, J s → Q (forEach callback keys s).2.
Proof.
  intros HJ HQ Hest. induction keys as [|k keys IH]; intros Hin s Hs.
  - apply elem_of_nil in Hin. destruct Hin.
  - simpl.
    pose proof (settle_preserves J (callback k) s (HJ k) Hs) as HJ1.
    destruct (decide (key = k)) as [->|Hne].
    + pose proof (Hest s Hs) as HQ1.
      destruct (settle (callback k) s) as [d s1]. simpl in HQ1.
      pose proof (forEach_preserves Q callback keys s1 HQ HQ1) as HQ2.
      destruct (forEach callback keys s1) as [ds s2]. exact HQ2.
    + apply elem_of_cons in Hin as [Heq|Hin]; [contradiction|].
      destruct (settle (callback k) s) as [d s1]. simpl in HJ1.
      specialize (IH Hin s1 HJ1).
      destruct (forEach callback keys s1) as [ds s2]. exact IH.
Qed.

Lemma refreshBalance_malformed key s :
  wellFormedKey X key = false →
  refreshBalance X key s
  = (Ok Skipped, add_console WarnKeyFormat (add_console (WarnInvalidKey key) s)).
Proof.
  intros H. unfold refreshBalance. unfold wellFormedKey in H. monad.
  rewrite H. reflexivity.
Qed.



End Refresh.

(** ** Resetting the cache *)

Section Reset.
Context (X : externals).

Lemma observableContract_keeps_cached a' abi a :
  preserves (λ s, is_Some (contracts s !! a')) (observableContract X abi a).
Proof.
  intros s Hs.
  destruct (isAddress X a) eqn:Ha;
    [|rewrite observableContract_invalid by exact Ha; exact Hs].
  destruct abi as [explicit|].
  - rewrite observableContract_explicit by exact Ha. exact Hs.
  - destruct (contracts s !! a) as [h|] eqn:Hc.
    + rewrite (observableContract_hit X a h) by assumption. exact Hs.
    + rewrite observableContract_miss by assumption. simpl.
      assert (Hres : contracts (resolving X a s) = contracts s).
      { unfold resolving. destruct (findAbi X a); reflexivity. }
      rewrite Hres, lookup_insert. case_decide; [eexists; reflexivity | exact Hs].
Qed.

Lemma observableContract_caches a s :
  isAddress X a = true →
  ∃ h, (observableContract X None a s).1 = Ok h
       ∧ contracts (observableContract X None a s).2 !! a = Some h.
Proof.
  intros Ha. destruct (contracts s !! a) as [h|] eqn:Hc.
  - exists h. rewrite (observableContract_hit X a h) by assumption. auto.
  - eexists. rewrite observableContract_miss by assumption. simpl.
    split; [reflexivity|]. apply lookup_insert_eq.
Qed.

(** A tracked call whose contract address is valid: its refresh callback
    gets a handle (from the cache, or built and cached) and does not end in
    an exception. *)
Lemma refreshFunction_resolves key e s :
  tf_get key (trackedFunctions s) = Some e →
  isAddress X (contractAddress e) = true →
  is_Some (contracts (settle (refreshFunction X key) s).2 !! contractAddress e)
  ∧ ∀ err, (settle (refreshFunction X key) s).1 ≠ Rejected (Some err).
Proof.
  intros He Ha.
  destruct (observableContract_caches (contractAddress e) s Ha) as (h & Hr & Hc).
  unfold settle, refreshFunction, invoke.
  unfold mbind, M_bind, mret, M_ret, gets, modify. rewrite He.
  destruct (observableContract X None (contractAddress e) s) as [o s1].
  simpl in Hr, Hc. subst o.
  destruct (chain X _ _); simpl; (split; [eexists; exact Hc | intros err; discriminate]).
Qed.

Lemma refresh_keeps_entry key e :
  (∀ k, preserves (λ s, tf_get key (trackedFunctions s) = Some e) (refreshBalance X k))
  ∧ (∀ k, preserves (λ s, tf_get key (trackedFunctions s) = Some e) (refreshFunction X k)).
Proof.
  assert (Hget : ∀ abi a, preserves (λ s, tf_get key (trackedFunctions s) = Some e)
                            (observableContract X abi a)).
  { apply observableContract_stable; intros; assumption. }
  split; intros k.
  - apply refreshBalance_preserves; try (intros; assumption). exact Hget.
  - apply refreshFunction_preserves; try (intros; assumption). exact Hget.
Qed.

(** C9. [resetContractCache] empties the cache and touches nothing else:
    tracked balances, tracked calls, published values, scheduler, console
    and call log are as before.  In the next refresh cycle every tracked
    call with a valid contract address gets its handle again: its callback
    does not end in an exception and the address is back in the cache. *)
Theorem resetContractCache_frame (s : world) :
  let s' := (resetContractCache s).2 in
  (resetContractCache s).1 = Ok tt
  ∧ contracts s' = ∅
  ∧ trackedBalances s' = trackedBalances s
  ∧ trackedFunctions s' = trackedFunctions s
  ∧ published s' = published s
  ∧ scheduler s' = scheduler s
  ∧ (nextHandle s', signer s', calls s', console s', cycles s')
    = (nextHandle s, signer s, calls s, console s, cycles s)
  ∧ (∀ key e,
       tf_get key (trackedFunctions s) = Some e →
       isAddress X (contractAddress e) = true →
       let s'' := updateOnBlock X s' in
       is_Some (contracts s'' !! contractAddress e)
       ∧ trackedBalances s'' = trackedBalances s
       ∧ trackedFunctions s'' = trackedFunctions s
       ∧ ∃ cycle d,
           cycles s'' = cycles s ++ [cycle]
           ∧ (key, d) ∈ cycle
           ∧ ∀ err, d ≠ Rejected (Some err)).
Proof.
  intros s'. repeat (split; [reflexivity|]).
  intros key e He Ha s''.
  destruct (updateOnBlock_cycle X s') as (cycle & Hc & _ & Hb & Hf).
  fold s'' in Hc, Hb, Hf.
  pose proof (updateOnBlock_unfold X s') as Hu. cbv zeta in Hu.
  set (s0 := add_console (LogRunning (clock s')) s') in Hu.
  set (b := forEach (refreshBalance X) (trackedBalances s') s0) in Hu.
  set (f := forEach (refreshFunction X) (map fst (trackedFunctions s')) b.2) in Hu.
  destruct (refresh_keeps_entry key e) as [Jb Jf].
  assert (HJ : tf_get key (trackedFunctions b.2) = Some e).
  { apply (forEach_preserves (λ s, tf_get key (trackedFunctions s) = Some e));
      [exact Jb | exact He]. }
  assert (Hkey : key ∈ map fst (trackedFunctions s')).
  { apply (tf_get_keys key e). exact He. }
  assert (Hcycle : cycle = b.1 ++ f.1).
  { subst s''. rewrite Hu in Hc. simpl in Hc.
    pose proof (forEach_refreshFunction_tracked X (map fst (trackedFunctions s')) b.2) as T2.
    pose proof (forEach_refreshBalance_tracked X (trackedBalances s') s0) as T1.
    fold f in T2. fold b in T1. unfold tracked in T1, T2.
    injection T1 as _ _ Tc1. injection T2 as _ _ Tc2.
    rewrite Tc2, Tc1 in Hc. simpl in Hc.
    apply app_inv_head in Hc. injection Hc as <-. reflexivity. }
  split; [|split; [exact Hb | split; [exact Hf|]]].
  - subst s''. rewrite Hu. simpl.
    apply (forEach_establishes (refreshFunction X) (map fst (trackedFunctions s')) key
             (λ s, is_Some (contracts s !! contractAddress e))
             (λ s, tf_get key (trackedFunctions s) = Some e));
      [exact Jf | | | exact Hkey | exact HJ].
    + intros k. apply refreshFunction_preserves; try (intros; assumption).
      apply observableContract_keeps_cached.
    + intros s1 H1. apply (refreshFunction_resolves key e s1 H1 Ha).
  - destruct (forEach_elem (refreshFunction X) (map fst (trackedFunctions s')) key
                (λ d, ∀ err, d ≠ Rejected (Some err))
                (λ s, tf_get key (trackedFunctions s) = Some e) Jf) with (s := b.2)
      as (d & Hd & HP); [| exact Hkey | exact HJ |].
    + intros s1 H1. apply (refreshFunction_resolves key e s1 H1 Ha).
    + exists cycle, d. split; [exact Hc|]. split; [|exact HP].
      rewrite Hcycle. apply elem_of_app. right. exact Hd.
Qed.

End Reset.

(** ** The theorems at the concrete session *)

Lemma track_key_from_caller_overrides_witness :
  (track demo trackable_demo None world_demo).1
  = Ok (functionKey_model token_demo "transfer" [VStr account_demo; VNum 5] [])
  ∧ obj_get "gasLimit" (effectiveOverrides demo trackable_demo []) = Some (VNum 100000).
Proof.
  destruct (track_key_from_caller_overrides demo trackable_demo None world_demo)
    as (Hkey & _ & _ & _ & Hmerge).
  split; [exact Hkey|].
  exact (Hmerge registered_demo "gasLimit" eq_refl).
Defined.

Lemma handle_cache_identity_witness :
  isAddress demo token_demo = true
  ∧ (∃ h s1,
       observableContract demo None token_demo (initial None) = (Ok h, s1)
       ∧ observableContract demo None token_demo s1 = (Ok h, s1)
       ∧ contracts s1 !! token_demo = Some h)
  ∧ (∃ h s1,
       observableContract demo (Some erc20_demo) token_demo world_tracked = (Ok h, s1)
       ∧ h_id h = nextHandle world_tracked
       ∧ b_interface (h_raw h) = erc20_demo
       ∧ (∀ a' cached, contracts world_tracked !! a' = Some cached →
            h_id cached ≠ h_id h ∧ cached ≠ h)
       ∧ contracts s1 = contracts world_tracked).
Proof.
  split; [reflexivity|]. split.
  - destruct (handle_cache_identity demo [] None token_demo) as [H _];
      [reflexivity | exact H].
  - destruct (handle_cache_identity demo session_demo None token_demo) as [_ H];
      [reflexivity | exact (H erc20_demo)].
Defined.


Lemma resetContractCache_frame_witness :
  contracts (resetContractCache world_tracked).2 = ∅
  ∧ trackedFunctions (resetContractCache world_tracked).2
    = trackedFunctions world_tracked
  ∧ is_Some (contracts (updateOnBlock demo (resetContractCache world_tracked).2)
               !! token_demo).
Proof.
  destruct (resetContractCache_frame demo world_tracked)
    as (_ & Hc & _ & Hf & _ & _ & _ & Hnext).
  split; [exact Hc|]. split; [exact Hf|].
  destruct (Hnext
    (functionKey_model token_demo "transfer" [VStr account_demo; VNum 5] [])
    {| contractAddress := token_demo;
       entry_rawFunction := {| rf_name := "transfer"; rf_owner := contract_demo |};
       entry_args := [VStr account_demo; VNum 5];
       entry_overrides := registered_demo |}) as [H _];
    [reflexivity | reflexivity | exact H].
Defined.

(** * Further properties of the module *)

(** ** Override lookup and injection *)

Section Overrides.
Context (X : externals).

Lemma lower_ascii_idempotent c : lower_ascii (lower_ascii c) = lower_ascii c.
Proof.
  destruct c as [[] [] [] [] [] [] [] []]; reflexivity.
Qed.

Lemma toLowerCase_idempotent s : toLowerCase (toLowerCase s) = toLowerCase s.
Proof.
  induction s as [|c s IH]; simpl; [reflexivity|].
  rewrite lower_ascii_idempotent, IH. reflexivity.
Qed.

(** A rule filed under an address that is not all lower case (a
    checksummed address, say) is never read: [getOverrides] answers the
    same with that entry of the table removed. *)
Theorem getOverrides_ignores_mixed_case_keys (k : string) (functionName : string)
    (contract : binding) :
  toLowerCase k ≠ k →
  getOverrides (with_overrides (delete k (contractOverrides X)) X) functionName contract
  = getOverrides X functionName contract.
Proof.
  intros Hk. unfold getOverrides. simpl.
  rewrite lookup_delete_ne; [reflexivity|].
  intros ->. apply Hk, toLowerCase_idempotent.
Qed.

(** The lookup does not depend on the case of the binding's address. *)
Theorem getOverrides_case_insensitive (functionName : string) (contract : binding) :
  getOverrides X functionName
    {| b_address := toLowerCase (b_address contract);
       b_interface := b_interface contract;
       b_signer := b_signer contract |}
  = getOverrides X functionName contract.
Proof. unfold getOverrides. simpl. rewrite toLowerCase_idempotent. reflexivity. Qed.

Lemma expectedArgLength_unknown prop contract :
  (∀ f, f ∈ b_interface contract → frag_name f ≠ Some prop) →
  expectedArgLength prop contract = Throw (FunctionNotFound prop (b_address contract)).
Proof.
  intros Hnone. unfold expectedArgLength.
  assert (Hfind : find (λ f, match frag_name f with
                             | Some name => String.eqb name prop
                             | None => false
                             end) (b_interface contract) = None).
  { induction (b_interface contract) as [|f fs IH]; simpl; [reflexivity|].
    destruct (frag_name f) as [name|] eqn:Hn.
    - destruct (String.eqb name prop) eqn:E.
      + apply String.eqb_eq in E. subst name.
        exfalso. apply (Hnone f); [left | exact Hn].
      + apply IH. intros f' Hf'. apply Hnone. right. exact Hf'.
    - apply IH. intros f' Hf'. apply Hnone. right. exact Hf'. }
  rewrite Hfind. reflexivity.
Qed.

(** A name that no fragment of the interface carries: [overrideWrapped]
    throws the not-found error of [expectedArgLength] and nothing is
    called. *)
Theorem overrideWrapped_unknown_function (prop : string) (contract : binding)
    (args : list value) (s : world) :
  (∀ f, f ∈ b_interface contract → frag_name f ≠ Some prop) →
  overrideWrapped X prop contract args s
  = (Throw (FunctionNotFound prop (b_address contract)), s).
Proof.
  intros Hnone. unfold overrideWrapped. monad.
  rewrite (expectedArgLength_unknown prop contract Hnone). reflexivity.
Qed.

(** Through the proxy, with a rule registered and exactly the declared
    number of arguments: the binding's function is called once, with the
    arguments followed by the registered overrides. *)
Theorem proxy_call_appends_registered (h : handle) (prop : string)
    (args : list value) (registered : object) (s : world) :
  prop ≠ "raw" → prop ≠ "trackBalance" → prop ≠ "functions" →
  is_function (h_raw h) prop = true →
  getOverrides X prop (h_raw h) = Some registered →
  NoDup (map fst registered) →
  expectedArgLength prop (h_raw h) = Ok (length args) →
  let c := CallMember (h_raw h) prop (args ++ [VObj registered]) in
  call_property X h prop args s = (Ok (chain X (length (calls s)) c), add_call c s).
Proof.
  intros Hraw Htb Hfn Hfun Hreg Hnd Hn c.
  unfold call_property, handler_get, binding_has, hasOverrides.
  apply String.eqb_neq in Hraw, Htb, Hfn.
  rewrite Hraw, Htb, Hfn, Hfun, Hreg. simpl.
  rewrite (overrideWrapped_exact X prop (h_raw h) args s Hn Hfun).
  assert (E : spread1 (getOverrides X prop (h_raw h)) = registered).
  { rewrite Hreg. apply spread1_nodup, Hnd. }
  rewrite E. reflexivity.
Qed.

End Overrides.

Lemma getOverrides_ignores_mixed_case_keys_witness :
  toLowerCase token_demo ≠ token_demo
  ∧ getOverrides (with_overrides (delete token_demo (contractOverrides demo)) demo)
      "transfer" contract_demo
    = getOverrides demo "transfer" contract_demo.
Proof.
  assert (H : toLowerCase token_demo ≠ token_demo) by (intros E; discriminate E).
  split; [exact H|].
  exact (getOverrides_ignores_mixed_case_keys demo token_demo "transfer" contract_demo H).
Defined.

Lemma overrideWrapped_unknown_function_witness :
  (∀ f, f ∈ b_interface contract_demo → frag_name f ≠ Some "approve")
  ∧ overrideWrapped demo "approve" contract_demo [VStr account_demo; VNum 5] world_demo
    = (Throw (FunctionNotFound "approve" token_demo), world_demo).
Proof.
  assert (H : ∀ f, f ∈ b_interface contract_demo → frag_name f ≠ Some "approve").
  { intros f Hf. simpl in Hf.
    repeat (apply elem_of_cons in Hf as [->|Hf]; [intros E; discriminate E|]).
    apply elem_of_nil in Hf. destruct Hf. }
  split; [exact H|].
  exact (overrideWrapped_unknown_function demo "approve" contract_demo
           [VStr account_demo; VNum 5] world_demo H).
Defined.

Lemma proxy_call_appends_registered_witness :
  call_property demo handle_demo "transfer" [VStr account_demo; VNum 5] world_demo
  = (Ok (Some (VNum 0)),
     add_call (CallMember contract_demo "transfer"
                 [VStr account_demo; VNum 5; VObj registered_demo]) world_demo).
Proof.
  apply (proxy_call_appends_registered demo handle_demo "transfer"
           [VStr account_demo; VNum 5] registered_demo world_demo);
    try (intros E; discriminate E); try reflexivity.
  repeat constructor; simpl; intros H;
    repeat (apply elem_of_cons in H as [H|H]; [discriminate H|]);
    apply elem_of_nil in H; exact H.
Defined.

(** ** More on the handle cache *)

Section CacheMore.
Context (X : externals).

(** A property that no log, tracked set or scheduler field can break, that
    [observableContract] keeps and that survives emptying the cache, holds
    in every state the module reaches. *)
Lemma reachable_stable (I : world → Prop) :
  (∀ c s, I s → I (add_call c s)) →
  (∀ l s, I s → I (add_console l s)) →
  (∀ k v s, I s → I (add_published k v s)) →
  (∀ c s, I s → I (add_cycle c s)) →
  (∀ f s, I s → I (set_trackedBalances f s)) →
  (∀ f s, I s → I (set_trackedFunctions f s)) →
  (∀ pid ts n s, I s → I (set_scheduler pid ts n s)) →
  (∀ t s, I s → I (set_clock t s)) →
  (∀ s, I s → I (set_contracts (λ _, ∅) s)) →
  (∀ abi a, preserves I (observableContract X abi a)) →
  ∀ es s, I s → I (run X es s).
Proof.
  intros Hcall Hcon Hpub Hcyc Htb Htf Hsch Hclk Hreset Hget.
  assert (Hupd : ∀ s, I s → I (updateOnBlock X s)).
  { apply (updateOnBlock_preserves X I); assumption. }
  assert (Hstep : ∀ e s, I s → I (step X e s)).
  { intros e s Hs.
    destruct e as [n|n|ms|abi a| |a account|h name args o|h prop args];
      try (apply (api_step_preserves X I); try assumption; intros; discriminate).
    - simpl. unfold onBlockNumber. destruct (decide _).
      + apply Hsch, Hcon, Hs.
      + apply Hcon, Hs.
    - apply Hsch, Hs.
    - simpl. unfold elapse.
      generalize (filter (λ t : nat * Z, (t.2 ≤ clock s + ms)%Z) (timers s)).
      intros due.
      assert (H0 : I (set_clock (clock s + ms)
                   (set_scheduler (blockNumberPid s)
                      (filter (λ t : nat * Z, ¬ (t.2 ≤ clock s + ms)%Z) (timers s))
                      (nextTimer s) s))) by apply Hclk, Hsch, Hs.
      revert H0.
      generalize (set_clock (clock s + ms)
                   (set_scheduler (blockNumberPid s)
                      (filter (λ t : nat * Z, ¬ (t.2 ≤ clock s + ms)%Z) (timers s))
                      (nextTimer s) s)).
      induction due as [|t due IH]; intros s0 H0; simpl; [exact H0|].
      apply IH, Hupd, H0. }
  induction es as [|e es IH]; intros s Hs; simpl; [exact Hs|].
  apply IH, Hstep, Hs.
Qed.

Lemma observableContract_cache_consistent abi a :
  preserves (cache_consistent X) (observableContract X abi a).
Proof.
  intros s Hs.
  destruct (isAddress X a) eqn:Ha;
    [|rewrite observableContract_invalid by exact Ha; exact Hs].
  destruct abi as [explicit|].
  - rewrite observableContract_explicit by exact Ha. exact Hs.
  - destruct (contracts s !! a) as [h|] eqn:Hc.
    + rewrite (observableContract_hit X a h) by assumption. exact Hs.
    + rewrite observableContract_miss by assumption. simpl.
      assert (Hres : contracts (resolving X a s) = contracts s).
      { unfold resolving. destruct (findAbi X a); reflexivity. }
      intros a' h'. simpl. rewrite Hres, lookup_insert.
      case_decide.
      * subst a'. intros H'. injection H' as <-. simpl. auto.
      * apply Hs.
Qed.

(** In every state the module reaches, a cached proxy sits under its own
    address, that address is valid, and its binding was built from the
    looked-up ABI, or from the erc20 fallback when the lookup failed:
    never from an ABI a caller passed. *)
Theorem cache_consistent_reachable (es : list event) (sg : option string) :
  cache_consistent X (run X es (initial sg)).
Proof.
  apply (reachable_stable (cache_consistent X)); try (intros; assumption).
  - intros s _ a h Hl. simpl in Hl. rewrite lookup_empty in Hl. discriminate Hl.
  - apply observableContract_cache_consistent.
  - intros a h Hl. simpl in Hl. rewrite lookup_empty in Hl. discriminate Hl.
Qed.

(** A member of [handle.functions] works exactly while the handle's
    address is in the cache: it then makes one call, on the cached binding;
    otherwise it throws and nothing is called.  In particular every handle
    obtained before [resetContractCache] has dead [functions] afterwards. *)
Theorem functions_member_needs_cache (h : handle) (name : string)
    (f : list value → M trackable) (args : list value) (s : world) :
  handle_functions X h name = Some f →
  (∀ cached, contracts s !! h_address h = Some cached →
     ∃ t, f args s
          = (Ok t, add_call (CallRaw {| rf_name := name; rf_owner := h_raw h |}
                               (h_raw cached) args) s))
  ∧ (contracts s !! h_address h = None →
       f args s = (Throw (TypeError "contracts[contractAddress] is undefined"), s))
  ∧ f args (resetContractCache s).2
    = (Throw (TypeError "contracts[contractAddress] is undefined"),
       (resetContractCache s).2).
Proof.
  intros Hf. apply handle_functions_Some in Hf as ->.
  split; [|split].
  - intros cached Hc. eexists.
    unfold generateTrackableFunction, invoke. monad. rewrite Hc. reflexivity.
  - intros Hc. unfold generateTrackableFunction. monad. rewrite Hc. reflexivity.
  - unfold generateTrackableFunction. monad. rewrite lookup_empty. reflexivity.
Qed.

End CacheMore.

Lemma functions_member_needs_cache_witness :
  match handle_functions demo handle_demo "transfer" with
  | Some f =>
      (∃ t, f [VStr account_demo; VNum 5] world_demo
            = (Ok t, add_call (CallRaw {| rf_name := "transfer"; rf_owner := contract_demo |}
                                 contract_demo [VStr account_demo; VNum 5]) world_demo))
      ∧ f [VStr account_demo; VNum 5] (resetContractCache world_demo).2
        = (Throw (TypeError "contracts[contractAddress] is undefined"),
           (resetContractCache world_demo).2)
  | None => False
  end.
Proof.
  destruct (handle_functions demo handle_demo "transfer") as [f|] eqn:Hf;
    [|discriminate Hf].
  destruct (functions_member_needs_cache demo handle_demo "transfer" f
              [VStr account_demo; VNum 5] world_demo Hf) as (Hhit & _ & Hreset).
  split; [|exact Hreset].
  apply (Hhit handle_demo). reflexivity.
Defined.

(** ** Tracking balances and calls *)

Section TrackingMore.
Context (X : externals).

Lemma existsb_eqb_elem key (keys : list string) :
  existsb (String.eqb key) keys = true ↔ key ∈ keys.
Proof.
  induction keys as [|k keys IH]; simpl.
  - split; [discriminate | intros H; apply elem_of_nil in H; destruct H].
  - rewrite orb_true_iff, IH, elem_of_cons, String.eqb_eq. tauto.
Qed.

Lemma NoDup_append_new (key : string) keys :
  key ∉ keys → NoDup keys → NoDup (keys ++ [key]).
Proof.
  intros Hnot Hnd. apply NoDup_app. split; [exact Hnd|]. split.
  - intros x Hx Hin. apply list_elem_of_singleton in Hin. subst x. apply Hnot, Hx.
  - apply NoDup_singleton.
Qed.

Lemma set_add_elem key keys : key ∈ set_add key keys.
Proof.
  unfold set_add. destruct (existsb (String.eqb key) keys) eqn:E.
  - apply existsb_eqb_elem, E.
  - apply elem_of_app. right. left.
Qed.

Lemma set_add_NoDup key keys : NoDup keys → NoDup (set_add key keys).
Proof.
  intros Hnd. unfold set_add. destruct (existsb (String.eqb key) keys) eqn:E.
  - exact Hnd.
  - apply NoDup_append_new; [|exact Hnd].
    intros Hin. apply existsb_eqb_elem in Hin. congruence.
Qed.

Lemma tf_set_keys key e tf :
  map fst (tf_set key e tf)
  = if existsb (String.eqb key) (map fst tf) then map fst tf else map fst tf ++ [key].
Proof.
  induction tf as [|[k e'] tf IH]; simpl; [reflexivity|].
  destruct (String.eqb key k) eqn:E; simpl; [reflexivity|].
  rewrite IH. destruct (existsb _ _); reflexivity.
Qed.

Lemma tf_set_NoDup key e tf :
  NoDup (map fst tf) → NoDup (map fst (tf_set key e tf)).
Proof.
  intros Hnd. rewrite tf_set_keys.
  destruct (existsb (String.eqb key) (map fst tf)) eqn:E; [exact Hnd|].
  apply NoDup_append_new; [|exact Hnd].
  intros Hin. apply existsb_eqb_elem in Hin. congruence.
Qed.

Lemma tf_get_set_ne key key' e tf :
  key ≠ key' → tf_get key (tf_set key' e tf) = tf_get key tf.
Proof.
  intros Hne. induction tf as [|[k e'] tf IH]; simpl.
  - apply String.eqb_neq in Hne. rewrite Hne. reflexivity.
  - destruct (String.eqb key' k) eqn:E; simpl.
    + apply String.eqb_eq in E. subst k.
      apply String.eqb_neq in Hne. rewrite Hne. reflexivity.
    + destruct (String.eqb key k); [reflexivity | exact IH].
Qed.

(** Passing an ABI never touches the cache or the tracked sets. *)
Lemma observableContract_explicit_frame explicit a s :
  contracts (observableContract X (Some explicit) a s).2 = contracts s
  ∧ tracked (observableContract X (Some explicit) a s).2 = tracked s
  ∧ calls (observableContract X (Some explicit) a s).2 = calls s.
Proof.
  destruct (isAddress X a) eqn:Ha.
  - rewrite observableContract_explicit by exact Ha. repeat split.
  - rewrite observableContract_invalid by exact Ha. repeat split.
Qed.

(** [trackBalance]: an invalid account is refused before anything is
    touched.  For a valid account the key enters the tracked set first, so
    it is tracked however the rest ends; the handle is built with the erc20
    ABI and therefore never cached; and the stream returned is the key's. *)
Theorem trackBalance_registers_first (a account : string) (s : world) :
  (isAddress X account = false →
     generateTrackBalanceFunction X a account s = (Throw (InvalidAddress account), s))
  ∧ (isAddress X account = true →
       let key := balanceKey X a account in
       let r := generateTrackBalanceFunction X a account s in
       trackedBalances r.2 = set_add key (trackedBalances s)
       ∧ key ∈ trackedBalances r.2
       ∧ contracts r.2 = contracts s
       ∧ trackedFunctions r.2 = trackedFunctions s
       ∧ (∀ k, r.1 = Ok k → k = key)).
Proof.
  split.
  - intros Ha. unfold generateTrackBalanceFunction, validateIsAddress. monad.
    rewrite Ha. reflexivity.
  - intros Ha key r.
    set (s1 := set_trackedBalances (set_add key) s).
    set (I := λ s' : world,
           trackedBalances s' = trackedBalances s1
           ∧ contracts s' = contracts s1
           ∧ trackedFunctions s' = trackedFunctions s1).
    assert (Hr : I r.2 ∧ ∀ k, r.1 = Ok k → k = key).
    { subst r. unfold generateTrackBalanceFunction, validateIsAddress.
      unfold mbind, M_bind, mret, M_ret, modify. rewrite Ha. fold key. fold s1.
      destruct (observableContract_explicit_frame (erc20 X) a s1) as (Hc & Ht & _).
      unfold tracked in Ht. injection Ht as Htb Htf _.
      destruct (observableContract X (Some (erc20 X)) a s1) as [[h|e] s2];
        simpl in Hc, Htb, Htf; [|split; [repeat split; assumption | discriminate]].
      assert (H2 : I s2) by (repeat split; assumption).
      pose proof (call_property_preserves X I (λ _ _ H, H) h "balanceOf"
                    [VStr account] s2 H2) as H3.
      destruct (call_property X h "balanceOf" [VStr account] s2) as [[[b|]|e] s3];
        simpl in *; (split; [exact H3|]); intros k Hk;
        [injection Hk as <-; reflexivity
        |injection Hk as <-; reflexivity
        |discriminate Hk]. }
    destruct Hr as [(Htb & Hc & Htf) Hk]. simpl in Htb, Hc, Htf.
    split; [exact Htb|]. split; [rewrite Htb; apply set_add_elem|].
    split; [exact Hc|]. split; [exact Htf | exact Hk].
Qed.

(** [track] on a key that is already tracked overwrites the entry in
    place: the tracked keys stay as they are, in the same order, the entry
    of the key is the new one, and every other entry is as before. *)
Theorem track_again_overwrites (t : trackable) (passed : option object) (s : world) :
  let callerOverrides := default [] passed in
  let key := functionKey X (t_contractAddress t) (t_functionName t) (t_args t)
               callerOverrides in
  let s' := (track X t passed s).2 in
  key ∈ map fst (trackedFunctions s) →
  map fst (trackedFunctions s') = map fst (trackedFunctions s)
  ∧ tf_get key (trackedFunctions s')
    = Some {| contractAddress := t_contractAddress t;
              entry_rawFunction := t_rawFunction t;
              entry_args := t_args t;
              entry_overrides := effectiveOverrides X t callerOverrides |}
  ∧ (∀ other, other ≠ key →
       tf_get other (trackedFunctions s') = tf_get other (trackedFunctions s))
  ∧ trackedBalances s' = trackedBalances s.
Proof.
  intros callerOverrides key s' Hin.
  set (entry := {| contractAddress := t_contractAddress t;
                   entry_rawFunction := t_rawFunction t;
                   entry_args := t_args t;
                   entry_overrides := effectiveOverrides X t callerOverrides |}).
  assert (Hs' : trackedFunctions s' = tf_set key entry (trackedFunctions s)
                ∧ trackedBalances s' = trackedBalances s).
  { subst s'. unfold track, invoke. monad.
    fold callerOverrides. fold key. fold (effectiveOverrides X t callerOverrides).
    fold entry. destruct (chain X _ _); split; reflexivity. }
  destruct Hs' as [Htf Htb]. rewrite Htf.
  split; [|split; [apply tf_get_set | split; [|exact Htb]]].
  - rewrite tf_set_keys. apply existsb_eqb_elem in Hin. rewrite Hin. reflexivity.
  - intros other Hne. apply tf_get_set_ne, Hne.
Qed.

(** In every state the module reaches no key is tracked twice, so a
    refresh cycle runs one callback per tracked balance and one per tracked
    call. *)
Theorem tracked_unique_reachable (es : list event) (sg : option string) :
  tracked_unique (run X es (initial sg)).
Proof.
  assert (Hview : ∀ s s', tracked s' = tracked s → tracked_unique s → tracked_unique s').
  { intros s s' H. unfold tracked in H. injection H as Hb Hf _.
    unfold tracked_unique. rewrite Hb, Hf. tauto. }
  assert (Hget : ∀ abi a, preserves tracked_unique (observableContract X abi a)).
  { intros abi a s Hs. apply (Hview s); [|exact Hs]. apply observableContract_tracked. }
  assert (Hcall : ∀ c s, tracked_unique s → tracked_unique (add_call c s))
    by (intros; assumption).
  assert (Hpub : ∀ k v s, tracked_unique s → tracked_unique (add_published k v s))
    by (intros; assumption).
  assert (Hadd : ∀ key s, tracked_unique s →
                   tracked_unique (set_trackedBalances (set_add key) s)).
  { intros key s [Hb Hf]. split; [apply set_add_NoDup, Hb | exact Hf]. }
  assert (Hset : ∀ key e s, tracked_unique s →
                   tracked_unique (set_trackedFunctions (tf_set key e) s)).
  { intros key e s [Hb Hf]. split; [exact Hb | apply tf_set_NoDup, Hf]. }
  assert (Hprop : ∀ h prop args, preserves tracked_unique (call_property X h prop args)).
  { apply call_property_preserves. exact Hcall. }
  assert (Hgen : ∀ a name raw args,
            preserves tracked_unique (generateTrackableFunction X a name raw args)).
  { apply generateTrackableFunction_preserves. exact Hcall. }
  assert (Hinv : ∀ c, preserves tracked_unique (invoke X c)).
  { apply invoke_preserves. exact Hcall. }
  assert (Hstep : ∀ e s, tracked_unique s → tracked_unique (step X e s)).
  { intros e s Hs.
    destruct e as [n|n|ms|abi a| |a account|h name args o|h prop args]; simpl.
    - unfold onBlockNumber. destruct (decide _); exact Hs.
    - exact Hs.
    - unfold elapse.
      generalize (filter (λ t : nat * Z, (t.2 ≤ clock s + ms)%Z) (timers s)).
      intros due.
      assert (H0 : tracked_unique
                (set_clock (clock s + ms)
                   (set_scheduler (blockNumberPid s)
                      (filter (λ t : nat * Z, ¬ (t.2 ≤ clock s + ms)%Z) (timers s))
                      (nextTimer s) s))) by exact Hs.
      revert H0.
      generalize (set_clock (clock s + ms)
                   (set_scheduler (blockNumberPid s)
                      (filter (λ t : nat * Z, ¬ (t.2 ≤ clock s + ms)%Z) (timers s))
                      (nextTimer s) s)).
      induction due as [|t due IH]; intros s0 H0; simpl; [exact H0|].
      apply IH. destruct (updateOnBlock_cycle X s0) as (_ & _ & _ & Hb & Hf).
      destruct H0 as [H0b H0f]. split; [rewrite Hb | rewrite Hf]; assumption.
    - apply Hget, Hs.
    - exact Hs.
    - revert s Hs.
      change (preserves tracked_unique (generateTrackBalanceFunction X a account)).
      unfold generateTrackBalanceFunction, validateIsAddress. preserve.
    - destruct (handle_functions X h name) as [f|] eqn:Hf; [|exact Hs].
      apply handle_functions_Some in Hf as ->.
      revert s Hs. change (preserves tracked_unique
        (generateTrackableFunction X (h_address h) name
           {| rf_name := name; rf_owner := h_raw h |} args ≫= λ t, track X t o)).
      apply preserves_bind; [apply Hgen|]. intros t. unfold track. preserve.
    - apply Hprop, Hs. }
  assert (Hrun : ∀ s, tracked_unique s → tracked_unique (run X es s)).
  { induction es as [|e es IH]; intros s Hs; simpl; [exact Hs|].
    apply IH, Hstep, Hs. }
  apply Hrun. split; simpl; apply NoDup_nil_2.
Qed.

End TrackingMore.

Lemma trackBalance_registers_first_witness :
  generateTrackBalanceFunction demo token_demo "0x12" world_demo
  = (Throw (InvalidAddress "0x12"), world_demo)
  ∧ balanceKey demo token_demo account_demo
    ∈ trackedBalances (generateTrackBalanceFunction demo token_demo account_demo world_demo).2
  ∧ contracts (generateTrackBalanceFunction demo token_demo account_demo world_demo).2
    = contracts world_demo.
Proof.
  destruct (trackBalance_registers_first demo token_demo "0x12" world_demo) as [Hbad _].
  destruct (trackBalance_registers_first demo token_demo account_demo world_demo)
    as [_ Hgood].
  split; [apply Hbad; reflexivity|].
  destruct (Hgood eq_refl) as (_ & Hin & Hc & _).
  split; [exact Hin | exact Hc].
Defined.

Lemma track_again_overwrites_witness :
  functionKey demo token_demo "transfer" [VStr account_demo; VNum 5] []
    ∈ map fst (trackedFunctions world_tracked)
  ∧ map fst (trackedFunctions (track demo trackable_demo None world_tracked).2)
    = map fst (trackedFunctions world_tracked).
Proof.
  assert (H : functionKey demo token_demo "transfer" [VStr account_demo; VNum 5] []
              ∈ map fst (trackedFunctions world_tracked)).
  { apply (proj1 (existsb_eqb_elem _ _)). reflexivity. }
  split; [exact H|].
  destruct (track_again_overwrites demo trackable_demo None world_tracked H) as [Hk _].
  exact Hk.
Defined.

(** ** Refreshing what was tracked *)

Section RefreshMore.
Context (X : externals).

Lemma observableContract_calls abi a s :
  calls (observableContract X abi a s).2 = calls s
  ∧ published (observableContract X abi a s).2 = published s.
Proof.
  apply (observableContract_stable X
           (λ s', calls s' = calls s ∧ published s' = published s));
    try (intros; assumption). split; reflexivity.
Qed.

Lemma track_state t passed s :
  let callerOverrides := default [] passed in
  let key := functionKey X (t_contractAddress t) (t_functionName t) (t_args t)
               callerOverrides in
  let effective := effectiveOverrides X t callerOverrides in
  let s' := (track X t passed s).2 in
  trackedFunctions s'
  = tf_set key {| contractAddress := t_contractAddress t;
                  entry_rawFunction := t_rawFunction t;
                  entry_args := t_args t;
                  entry_overrides := effective |} (trackedFunctions s)
  ∧ calls s' = calls s ++ [CallRaw (t_rawFunction t) (t_contract t)
                             (t_args t ++ [VObj effective])].
Proof.
  intros callerOverrides key effective s'. subst s'.
  unfold track, invoke. monad.
  fold callerOverrides. fold key. fold (effectiveOverrides X t callerOverrides).
  fold effective. destruct (chain X _ _); split; reflexivity.
Qed.

(** Tracking a call and then refreshing it: the refresh gets the handle of
    the entry's contract and calls the same raw function with the same
    arguments and the same overrides [track] sent, and what the call
    resolves to is published under the key [track] returned. *)
Theorem refresh_resends_tracked_call (t : trackable) (passed : option object)
    (s : world) :
  isAddress X (t_contractAddress t) = true →
  let callerOverrides := default [] passed in
  let key := functionKey X (t_contractAddress t) (t_functionName t) (t_args t)
               callerOverrides in
  let sent := t_args t ++ [VObj (effectiveOverrides X t callerOverrides)] in
  let s1 := (track X t passed s).2 in
  let r := settle (refreshFunction X key) s1 in
  ∃ h,
    (observableContract X None (t_contractAddress t) s1).1 = Ok h
    ∧ calls r.2 = calls s ++ [CallRaw (t_rawFunction t) (t_contract t) sent;
                              CallRaw (t_rawFunction t) (h_raw h) sent]
    ∧ r.1 = match chain X (S (length (calls s)))
                    (CallRaw (t_rawFunction t) (h_raw h) sent) with
            | Some v => Published v
            | None => Rejected None
            end
    ∧ (∀ v, r.1 = Published v → last (published r.2) = Some (key, v)).
Proof.
  intros Ha callerOverrides key sent s1 r.
  destruct (track_state t passed s) as [Htf Hcalls].
  fold callerOverrides key s1 in Htf. fold callerOverrides sent s1 in Hcalls.
  destruct (observableContract_caches X (t_contractAddress t) s1 Ha) as (h & Hr & _).
  destruct (observableContract_calls None (t_contractAddress t) s1) as [Hc _].
  exists h. split; [exact Hr|].
  assert (Hentry : tf_get key (trackedFunctions s1)
                   = Some {| contractAddress := t_contractAddress t;
                             entry_rawFunction := t_rawFunction t;
                             entry_args := t_args t;
                             entry_overrides := effectiveOverrides X t callerOverrides |}).
  { rewrite Htf. apply tf_get_set. }
  subst r. unfold settle, refreshFunction, invoke.
  unfold mbind, M_bind, mret, M_ret, gets, modify. rewrite Hentry. simpl.
  destruct (observableContract X None (t_contractAddress t) s1) as [o s2].
  simpl in Hr, Hc. subst o. fold sent.
  assert (Hlen : length (calls s2) = S (length (calls s))).
  { rewrite Hc, Hcalls, length_app. simpl. lia. }
  rewrite Hlen.
  destruct (chain X (S (length (calls s))) (CallRaw (t_rawFunction t) (h_raw h) sent))
    as [v|]; simpl.
  - split; [rewrite Hc, Hcalls, <- app_assoc; reflexivity|].
    split; [reflexivity|].
    intros v' Hv'. injection Hv' as <-. apply last_snoc.
  - split; [rewrite Hc, Hcalls, <- app_assoc; reflexivity|].
    split; [reflexivity|]. intros v' Hv'. discriminate Hv'.
Qed.

Lemma js_split_no_separator sep a :
  occurs sep a = false → js_split sep a = [a].
Proof.
  induction a as [|c a IH]; simpl; [reflexivity|].
  intros H. apply orb_false_iff in H as [Hc Ha].
  rewrite Hc, (IH Ha). reflexivity.
Qed.

(** Joining two separator-free strings with the separator and splitting
    again gives the two strings back. *)
Lemma js_split_join sep t a :
  occurs sep t = false → occurs sep a = false →
  js_split sep (t +:+ String sep a) = [t; a].
Proof.
  intros Ht Ha. induction t as [|c t IH]; simpl.
  - rewrite Ascii.eqb_refl, (js_split_no_separator sep a Ha). reflexivity.
  - simpl in Ht. apply orb_false_iff in Ht as [Hc Ht].
    rewrite Hc, (IH Ht). reflexivity.
Qed.

(** A tracked-balance key in the format the warning names,
    [token.account] with two valid addresses: the refresh builds a binding
    for the token with the erc20 ABI (the cache is neither read nor
    written), calls [balanceOf(account)] on it and publishes the result's
    string under the key. *)
Theorem refreshBalance_reads_balance (token account : string) (s : world) :
  isAddress X token = true → isAddress X account = true →
  occurs "." token = false → occurs "." account = false →
  existsb (is_function_named "balanceOf") (erc20 X) = true →
  let key := token +:+ String "." account in
  let c := CallMember {| b_address := token; b_interface := erc20 X;
                         b_signer := signer s |} "balanceOf" [VStr account] in
  let r := settle (refreshBalance X key) s in
  calls r.2 = calls s ++ [c]
  ∧ contracts r.2 = contracts s
  ∧ r.1 = match chain X (length (calls s)) c with
          | Some b => Published (VStr (toString X b))
          | None => Rejected None
          end
  ∧ published r.2
    = published s ++ match chain X (length (calls s)) c with
                     | Some b => [(key, VStr (toString X b))]
                     | None => []
                     end.
Proof.
  intros Ht Ha Hdt Hda Hbal key c r. subst r.
  assert (Hs : js_split "." key = [token; account])
    by exact (js_split_join "." token account Hdt Hda).
  unfold settle, refreshBalance. rewrite Hs.
  unfold element. simpl. rewrite Ht, Ha. simpl.
  unfold mbind, M_bind, mret, M_ret, modify.
  rewrite (observableContract_explicit X token (erc20 X) s Ht). simpl.
  unfold call_binding, is_function. simpl. rewrite Hbal.
  unfold invoke, mbind, M_bind, mret, M_ret, gets, modify. simpl. fold c.
  destruct (chain X (length (calls s)) c) as [b|]; simpl;
    repeat split; rewrite ?app_nil_r; reflexivity.
Qed.

End RefreshMore.

Lemma refresh_resends_tracked_call_witness :
  isAddress demo (t_contractAddress trackable_demo) = true
  ∧ ∃ h,
      (observableContract demo None token_demo
         (track demo trackable_demo None world_demo).2).1 = Ok h
      ∧ calls (settle (refreshFunction demo
                         (functionKey demo token_demo "transfer"
                            [VStr account_demo; VNum 5] []))
                 (track demo trackable_demo None world_demo).2).2
        = calls world_demo
          ++ [CallRaw (t_rawFunction trackable_demo) contract_demo
                [VStr account_demo; VNum 5; VObj registered_demo];
              CallRaw (t_rawFunction trackable_demo) (h_raw h)
                [VStr account_demo; VNum 5; VObj registered_demo]].
Proof.
  split; [reflexivity|].
  destruct (refresh_resends_tracked_call demo trackable_demo None world_demo eq_refl)
    as (h & Hh & Hcalls & _).
  exists h. split; [exact Hh | exact Hcalls].
Defined.

Lemma refreshBalance_reads_balance_witness :
  isAddress demo token_demo = true ∧ isAddress demo account_demo = true
  ∧ occurs "." token_demo = false ∧ occurs "." account_demo = false
  ∧ existsb (is_function_named "balanceOf") (erc20 demo) = true
  ∧ (settle (refreshBalance demo (token_demo +:+ String "." account_demo))
       world_tracked).1
    = Published (VStr "3").
Proof.
  do 5 (split; [reflexivity|]).
  destruct (refreshBalance_reads_balance demo token_demo account_demo world_tracked
              eq_refl eq_refl eq_refl eq_refl eq_refl) as (_ & _ & Hr & _).
  exact Hr.
Defined.

(** ** More on the scheduler *)

Section SchedulerMore.
Context (X : externals).

Lemma filter_split_length (P : nat * Z → Prop) `{∀ t, Decision (P t)}
    (ts : list (nat * Z)) :
  length (filter P ts) + length (filter (λ t, ¬ P t) ts) = length ts.
Proof.
  induction ts as [|t ts IH]; [reflexivity|].
  destruct (decide (P t)) as [Hp|Hp].
  - rewrite (filter_cons_True P) by exact Hp.
    rewrite (filter_cons_False (λ t, ¬ P t)) by tauto. simpl. lia.
  - rewrite (filter_cons_False P) by exact Hp.
    rewrite (filter_cons_True (λ t, ¬ P t)) by exact Hp. simpl. lia.
Qed.

Lemma fire_cycles (due : list (nat * Z)) s :
  refreshCount (fold_left (λ acc _, updateOnBlock X acc) due s)
  = refreshCount s + length due.
Proof.
  revert s. induction due as [|t due IH]; intros s; simpl; [lia|].
  rewrite IH. destruct (updateOnBlock_cycle X s) as (cycle & Hc & _).
  unfold refreshCount. rewrite Hc, length_app. simpl. lia.
Qed.

Lemma clearTimeout_length id ts : length (clearTimeout id ts) ≤ length ts.
Proof. destruct id as [i|]; simpl; [apply length_filter | lia]. Qed.

(** Refresh cycles run and timeouts pending never outnumber the timeouts
    set ([nextTimer] counts the calls of [setTimeout]): a refresh only ever
    runs as the callback of a timeout, once per timeout. *)
Theorem refreshes_bounded_by_timeouts (es : list event) (sg : option string) :
  let s := run X es (initial sg) in
  refreshCount s + length (timers s) ≤ nextTimer s.
Proof.
  set (I := λ s : world, refreshCount s + length (timers s) ≤ nextTimer s).
  assert (Harm : ∀ n s, I s → I (arm n s)).
  { intros n s Hs. unfold I, arm in *. simpl.
    rewrite length_app. simpl.
    pose proof (clearTimeout_length (blockNumberPid s).2 (timers s)).
    unfold refreshCount in *. simpl. lia. }
  assert (Hstep : ∀ e s, I s → I (step X e s)).
  { intros e s Hs.
    destruct e as [n|n|ms|abi a| |a account|h name args o|h prop args];
      try (apply (api_step_preserves X I); try (intros; assumption);
           try (intros; discriminate);
           apply observableContract_stable; intros; assumption).
    - simpl. unfold onBlockNumber. destruct (decide _); [|exact Hs].
      apply Harm. exact Hs.
    - apply Harm, Hs.
    - simpl. unfold I, elapse in *. rewrite fire_cycles.
      pose proof (fire_scheduler X
        (filter (λ t : nat * Z, (t.2 ≤ clock s + ms)%Z) (timers s))
        (set_clock (clock s + ms)
           (set_scheduler (blockNumberPid s)
              (filter (λ t : nat * Z, ¬ (t.2 ≤ clock s + ms)%Z) (timers s))
              (nextTimer s) s))) as Hsch.
      unfold scheduler in Hsch. injection Hsch as _ Ht Hn _.
      rewrite Ht, Hn.
      pose proof (filter_split_length (λ t : nat * Z, (t.2 ≤ clock s + ms)%Z)
                    (timers s)).
      unfold refreshCount in *. simpl. lia. }
  assert (Hrun : ∀ s, I s → I (run X es s)).
  { induction es as [|e es IH]; intros s Hs; simpl; [exact Hs|].
    apply IH, Hstep, Hs. }
  apply Hrun. unfold I. simpl. lia.
Qed.

(** Block-number events with numbers up to [N] set at most
    [(N - lastTarget) / 5] timeouts, however many events there are: each
    arming moves the target at least five blocks up. *)
Theorem block_events_arm_rarely (ns : list Z) (N : Z) (s : world) :
  Forall (λ n, (n ≤ N)%Z) ns →
  (lastTarget s ≤ N)%Z →
  let s' := run X (map BlockNumber ns) s in
  (5 * (Z.of_nat (nextTimer s') - Z.of_nat (nextTimer s)) ≤ N - lastTarget s)%Z
  ∧ nextTimer s ≤ nextTimer s'
  ∧ (lastTarget s ≤ lastTarget s' ≤ N)%Z.
Proof.
  revert s. induction ns as [|n ns IH]; intros s Hall HN; simpl.
  - lia.
  - apply Forall_cons in Hall as [Hn Hall].
    destruct (decide (lastTarget s + 4 < n)%Z) as [Hlt|Hge].
    + rewrite onBlockNumber_beyond by exact Hlt.
      set (s1 := arm n (add_console (LogBlockNumber n) s)).
      assert (H1 : lastTarget s1 = n ∧ nextTimer s1 = S (nextTimer s))
        by (split; reflexivity).
      destruct H1 as [Hl1 Hn1].
      destruct (IH s1 Hall) as (Hb & Hmono & Hlo & Hhi); [lia|].
      rewrite Hl1, Hn1 in *. lia.
    + rewrite onBlockNumber_within by lia.
      set (s1 := add_console (LogBlockNumber n) s).
      assert (H1 : lastTarget s1 = lastTarget s ∧ nextTimer s1 = nextTimer s)
        by (split; reflexivity).
      destruct H1 as [Hl1 Hn1].
      destruct (IH s1 Hall) as (Hb & Hmono & Hlo & Hhi); [lia|].
      rewrite Hl1, Hn1 in *. lia.
Qed.

Lemma elapse_not_due ms s id due :
  timers s = [(id, due)] → (clock s + ms < due)%Z →
  elapse X ms s
  = set_clock (clock s + ms)
      (set_scheduler (blockNumberPid s) [(id, due)] (nextTimer s) s).
Proof.
  intros Ht Hlt. unfold elapse. rewrite Ht.
  rewrite (filter_cons_False (λ t : nat * Z, (t.2 ≤ clock s + ms)%Z))
    by (simpl; lia).
  rewrite (filter_cons_True (λ t : nat * Z, ¬ (t.2 ≤ clock s + ms)%Z))
    by (simpl; lia).
  reflexivity.
Qed.

(** Each arming event restarts the 500ms window.  In every state the
    module reaches: a bump, less than 500ms of silence, another bump and
    again less than 500ms of silence run no refresh, however long the two
    silences are together; the refresh runs, once, when the silence after
    the second bump reaches 500ms. *)
Theorem rearming_restarts_window (es : list event) (sg : option string)
    (n1 n2 a b c : Z) :
  (a < 500)%Z → (b < 500)%Z → (500 ≤ b + c)%Z →
  let s := run X es (initial sg) in
  refreshCount (run X [BlockNumberBump n1; Elapse a; BlockNumberBump n2; Elapse b] s)
  = refreshCount s
  ∧ refreshCount (run X [BlockNumberBump n1; Elapse a; BlockNumberBump n2;
                         Elapse b; Elapse c] s)
    = S (refreshCount s).
Proof.
  intros Ha Hb Hbc s.
  pose proof (one_timer_reachable X es sg) as Hone. fold s in Hone.
  destruct (arm_spec n1 s Hone) as (Ht1 & Hp1 & Hn1 & _).
  set (s1 := arm n1 s) in *.
  assert (He1 : elapse X a s1
                = set_clock (clock s1 + a)
                    (set_scheduler (blockNumberPid s1)
                       [(nextTimer s, (clock s + 500)%Z)] (nextTimer s1) s1)).
  { apply elapse_not_due; [exact Ht1|]. change (clock s1) with (clock s). lia. }
  set (s2 := elapse X a s1) in *.
  assert (Hone2 : one_timer s2).
  { subst s2. apply one_timer_elapse, one_timer_arm, Hone. }
  destruct (arm_spec n2 s2 Hone2) as (Ht3 & _).
  set (s3 := arm n2 s2) in *.
  assert (Hc3 : cycles s3 = cycles s).
  { change (cycles s3) with (cycles s2). rewrite He1. reflexivity. }
  assert (He3 : elapse X b s3
                = set_clock (clock s3 + b)
                    (set_scheduler (blockNumberPid s3)
                       [(nextTimer s2, (clock s2 + 500)%Z)] (nextTimer s3) s3)).
  { apply elapse_not_due; [exact Ht3|]. change (clock s3) with (clock s2). lia. }
  change (run X [BlockNumberBump n1; Elapse a; BlockNumberBump n2; Elapse b] s)
    with (elapse X b s3).
  change (run X [BlockNumberBump n1; Elapse a; BlockNumberBump n2; Elapse b; Elapse c] s)
    with (elapse X c (elapse X b s3)).
  assert (Hc4 : cycles (elapse X b s3) = cycles s) by (rewrite He3; exact Hc3).
  assert (Ht4 : timers (elapse X b s3) = [(nextTimer s2, (clock s2 + 500)%Z)])
    by (rewrite He3; reflexivity).
  assert (Hk4 : clock (elapse X b s3) = (clock s2 + b)%Z)
    by (rewrite He3; reflexivity).
  split.
  - unfold refreshCount. rewrite Hc4. reflexivity.
  - destruct (elapse_due X c (elapse X b s3) _ _ Ht4) as (cycle & Hc & _).
    + rewrite Hk4. lia.
    + unfold refreshCount. rewrite Hc, length_app, Hc4. simpl. lia.
Qed.

End SchedulerMore.

Lemma block_events_arm_rarely_witness :
  Forall (λ n, (n ≤ 12)%Z) [3; 5; 6; 9; 10; 11; 12]%Z
  ∧ (lastTarget world_tracked ≤ 12)%Z
  ∧ (5 * (Z.of_nat (nextTimer (run demo (map BlockNumber [3; 5; 6; 9; 10; 11; 12]%Z)
                                 world_tracked))
          - Z.of_nat (nextTimer world_tracked))
     ≤ 12 - lastTarget world_tracked)%Z.
Proof.
  assert (H1 : Forall (λ n, (n ≤ 12)%Z) [3; 5; 6; 9; 10; 11; 12]%Z)
    by (repeat constructor; lia).
  assert (H2 : (lastTarget world_tracked ≤ 12)%Z)
    by (vm_compute; intros H; discriminate H).
  split; [exact H1|]. split; [exact H2|].
  destruct (block_events_arm_rarely demo [3; 5; 6; 9; 10; 11; 12]%Z 12%Z
              world_tracked H1 H2) as [H _].
  exact H.
Defined.

Lemma rearming_restarts_window_witness :
  (400 < 500)%Z ∧ (300 < 500)%Z ∧ (500 ≤ 300 + 200)%Z
  ∧ refreshCount (run demo [BlockNumberBump 7; Elapse 400; BlockNumberBump 2; Elapse 300]
                    world_tracked)
    = refreshCount world_tracked
  ∧ refreshCount (run demo [BlockNumberBump 7; Elapse 400; BlockNumberBump 2;
                            Elapse 300; Elapse 200] world_tracked)
    = S (refreshCount world_tracked).
Proof.
  assert (H1 : (400 < 500)%Z) by lia.
  assert (H2 : (300 < 500)%Z) by lia.
  assert (H3 : (500 ≤ 300 + 200)%Z) by lia.
  split; [exact H1|]. split; [exact H2|]. split; [exact H3|].
  exact (rearming_restarts_window demo session_demo None 7 2 400 300 200 H1 H2 H3).
Defined.

(** ** What a refresh cycle and a tracked call do as a whole *)

Section Whole.
Context (X : externals).

(** A refresh cycle, whatever its callbacks meet (rejected calls, invalid
    keys, exceptions): it runs one callback per tracked key, in order,
    leaves the tracked sets and the scheduler as they are (it arms no
    timeout) and drops nothing from the cache. *)
Theorem refresh_cycle_frame (s : world) :
  let s' := updateOnBlock X s in
  (∃ cycle, cycles s' = cycles s ++ [cycle] ∧ map fst cycle = trackedKeys s)
  ∧ trackedBalances s' = trackedBalances s
  ∧ trackedFunctions s' = trackedFunctions s
  ∧ scheduler s' = scheduler s
  ∧ (∀ a, is_Some (contracts s !! a) → is_Some (contracts s' !! a)).
Proof.
  intros s'. subst s'.
  destruct (updateOnBlock_cycle X s) as (cycle & Hc & Hk & Hb & Hf).
  split; [exists cycle; split; assumption|].
  split; [exact Hb|]. split; [exact Hf|].
  split; [apply updateOnBlock_scheduler|].
  intros a. apply (updateOnBlock_preserves X (λ s, is_Some (contracts s !! a)));
    try (intros; assumption).
  apply observableContract_keeps_cached.
Qed.

(** Through the proxy, with a rule registered: a call with more arguments
    than the function declares is refused by the guard of
    [overrideWrapped] and nothing is called. *)
Theorem proxy_call_refuses_extra_arguments (h : handle) (prop : string)
    (args : list value) (n : nat) (s : world) :
  prop ≠ "raw" → prop ≠ "trackBalance" → prop ≠ "functions" →
  binding_has (h_raw h) prop = true →
  hasOverrides X prop (h_raw h) = true →
  expectedArgLength prop (h_raw h) = Ok n →
  n < length args →
  call_property X h prop args s = (Throw (ReferenceError "address"), s).
Proof.
  intros Hraw Htb Hfn Hhas Hrule Hn Hlt.
  unfold call_property, handler_get.
  apply String.eqb_neq in Hraw, Htb, Hfn.
  rewrite Hraw, Htb, Hfn, Hhas, Hrule. simpl.
  apply (overrideWrapped_guard X prop (h_raw h) args n s Hn Hlt).
Qed.

(** Tracking a call of a cached handle, [h.functions[name](...args).track(o)],
    calls the raw function twice: once with the arguments alone, when the
    member is called, and once more with the effective overrides appended,
    when [track] runs. *)
Theorem track_call_invokes_twice (h cached : handle) (name : string)
    (args : list value) (o : option object) (s : world) :
  existsb (String.eqb name) (functionNames (h_raw h)) = true →
  contracts s !! h_address h = Some cached →
  let raw := {| rf_name := name; rf_owner := h_raw h |} in
  let t := {| t_contractAddress := h_address h; t_functionName := name;
              t_rawFunction := raw; t_contract := h_raw cached;
              t_args := args;
              t_result := chain X (length (calls s)) (CallRaw raw (h_raw cached) args) |} in
  calls (step X (TrackCall h name args o) s)
  = calls s ++ [CallRaw raw (h_raw cached) args;
                CallRaw raw (h_raw cached)
                  (args ++ [VObj (effectiveOverrides X t (default [] o))])].
Proof.
  intros Hname Hc raw t. simpl. unfold handle_functions. rewrite Hname.
  unfold generateTrackableFunction, invoke.
  unfold mbind at 1. unfold M_bind at 1.
  unfold mbind, M_bind, mret, M_ret, gets, modify. rewrite Hc. simpl.
  fold raw. fold t.
  destruct (track_state X t o (add_call (CallRaw raw (h_raw cached) args) s))
    as [_ Hcalls].
  rewrite Hcalls. simpl. rewrite <- app_assoc. reflexivity.
Qed.

End Whole.

Lemma proxy_call_refuses_extra_arguments_witness :
  call_property demo handle_demo "transfer"
    [VStr account_demo; VNum 5; VObj [("gasLimit", VNum 7)]] world_demo
  = (Throw (ReferenceError "address"), world_demo).
Proof.
  apply (proxy_call_refuses_extra_arguments demo handle_demo "transfer"
           [VStr account_demo; VNum 5; VObj [("gasLimit", VNum 7)]] 2 world_demo);
    try (intros E; discriminate E); try reflexivity.
  simpl. lia.
Defined.

Lemma track_call_invokes_twice_witness :
  calls (step demo (TrackCall handle_demo "transfer" [VStr account_demo; VNum 5] None)
           world_demo)
  = calls world_demo
    ++ [CallRaw {| rf_name := "transfer"; rf_owner := contract_demo |} contract_demo
          [VStr account_demo; VNum 5];
        CallRaw {| rf_name := "transfer"; rf_owner := contract_demo |} contract_demo
          [VStr account_demo; VNum 5; VObj registered_demo]].
Proof.
  exact (track_call_invokes_twice demo handle_demo handle_demo "transfer"
           [VStr account_demo; VNum 5] None world_demo eq_refl eq_refl).
Defined.

(** * The debounced refresh, by its effects *)

Section Debounce.
Context (X : externals).

Lemma preserves_and {A} (I J : world → Prop) (m : M A) :
  preserves I m → preserves J m → preserves (λ s, I s ∧ J s) m.
Proof. intros HI HJ s [Hi Hj]. split; [apply HI, Hi | apply HJ, Hj]. Qed.

(** *** The logs only grow *)

Lemma refresh_grown s :
  (∀ k, preserves (grown s) (refreshBalance X k))
  ∧ (∀ k, preserves (grown s) (refreshFunction X k)).
Proof.
  assert (Hcall : ∀ c s1, grown s s1 → grown s (add_call c s1)).
  { intros c s1 (H1 & H2 & H3 & H4). repeat split; try assumption.
    simpl. rewrite length_app. lia. }
  assert (Hcon : ∀ l s1, grown s s1 → grown s (add_console l s1)).
  { intros l s1 (H1 & H2 & H3 & H4). repeat split; try assumption.
    simpl. rewrite length_app. lia. }
  assert (Hpub : ∀ k v s1, grown s s1 → grown s (add_published k v s1)).
  { intros k v s1 (H1 & H2 & H3 & H4). repeat split; try assumption.
    simpl. rewrite length_app. lia. }
  assert (Hget : ∀ abi a, preserves (grown s) (observableContract X abi a)).
  { apply observableContract_stable; try (intros; assumption). exact Hcon. }
  split; intros k.
  - apply refreshBalance_preserves; assumption.
  - apply refreshFunction_preserves; assumption.
Qed.

Lemma sent_since_kept s c key shown :
  (∀ k, preserves (λ s', sent_since X s s' c key shown) (refreshBalance X k))
  ∧ (∀ k, preserves (λ s', sent_since X s s' c key shown) (refreshFunction X k)).
Proof.
  set (I := λ s', sent_since X s s' c key shown).
  assert (Hcall : ∀ c' s1, I s1 → I (add_call c' s1)).
  { intros c' s1 (i & Hi & Hl & Hp). exists i. split; [exact Hi|]. split; [|exact Hp].
    simpl. apply lookup_app_l_Some, Hl. }
  assert (Hpub : ∀ k v s1, I s1 → I (add_published k v s1)).
  { intros k v s1 (i & Hi & Hl & Hp). exists i. split; [exact Hi|]. split; [exact Hl|].
    intros w Hw. destruct (Hp w Hw) as (j & Hj & Hlj). exists j. split; [exact Hj|].
    simpl. apply lookup_app_l_Some, Hlj. }
  assert (Hget : ∀ abi a, preserves I (observableContract X abi a)).
  { apply observableContract_stable; intros; assumption. }
  split; intros k.
  - apply refreshBalance_preserves; try assumption; intros; assumption.
  - apply refreshFunction_preserves; try assumption; intros; assumption.
Qed.

Lemma warned_since_kept s key :
  (∀ k, preserves (λ s', warned_since s s' key) (refreshBalance X k))
  ∧ (∀ k, preserves (λ s', warned_since s s' key) (refreshFunction X k)).
Proof.
  set (I := λ s', warned_since s s' key).
  assert (Hcon : ∀ l s1, I s1 → I (add_console l s1)).
  { intros l s1 (j & Hj & Hl). exists j. split; [exact Hj|].
    simpl. apply lookup_app_l_Some, Hl. }
  assert (Hget : ∀ abi a, preserves I (observableContract X abi a)).
  { apply observableContract_stable; try (intros; assumption). exact Hcon. }
  split; intros k.
  - apply refreshBalance_preserves; try assumption; intros; assumption.
  - apply refreshFunction_preserves; try assumption; intros; assumption.
Qed.

Lemma refresh_cache_consistent :
  (∀ k, preserves (cache_consistent X) (refreshBalance X k))
  ∧ (∀ k, preserves (cache_consistent X) (refreshFunction X k)).
Proof.
  split; intros k.
  - apply refreshBalance_preserves; try (intros; assumption).
    apply observableContract_cache_consistent.
  - apply refreshFunction_preserves; try (intros; assumption).
    apply observableContract_cache_consistent.
Qed.

(** *** What one callback does *)

Lemma wellFormedKey_parts key :
  wellFormedKey X key = true →
  ∃ token account,
    element (js_split "." key) 0 = VStr token
    ∧ element (js_split "." key) 1 = VStr account
    ∧ isAddress X token = true ∧ isAddress X account = true.
Proof.
  unfold wellFormedKey. intros H. apply andb_true_iff in H as [H0 H1].
  destruct (element (js_split "." key) 0) as [| | | |token| |]; try discriminate H0.
  destruct (element (js_split "." key) 1) as [| | | |account| |]; try discriminate H1.
  exists token, account. auto.
Qed.

Lemma refreshBalance_sends key s s1 :
  wellFormedKey X key = true →
  existsb (is_function_named "balanceOf") (erc20 X) = true →
  grown s s1 →
  sent_since X s (settle (refreshBalance X key) s1).2 (balanceCall X s key) key
    (λ b, VStr (toString X b)).
Proof.
  intros Hwf Hbal (Hc & Hp & _ & Hsg).
  destruct (wellFormedKey_parts key Hwf) as (token & account & E0 & E1 & Ht & Ha).
  unfold balanceCall. rewrite E0, E1, <- Hsg. simpl.
  set (c := CallMember {| b_address := token; b_interface := erc20 X;
                          b_signer := signer s1 |} "balanceOf" [VStr account]).
  assert (Hrun : settle (refreshBalance X key) s1
    = match chain X (length (calls s1)) c with
      | Some b => (Published (VStr (toString X b)),
                   add_published key (VStr (toString X b))
                     (add_call c (set_nextHandle (S (nextHandle s1)) s1)))
      | None => (Rejected None, add_call c (set_nextHandle (S (nextHandle s1)) s1))
      end).
  { unfold settle, refreshBalance. fold (wellFormedKey X key). rewrite Hwf, E0, E1.
    simpl. unfold mbind, M_bind, mret, M_ret, modify.
    rewrite (observableContract_explicit X token (erc20 X) s1 Ht). simpl.
    unfold call_binding, is_function. simpl. rewrite Hbal.
    unfold invoke, mbind, M_bind, mret, M_ret, gets, modify. simpl. fold c.
    destruct (chain X (length (calls s1)) c); reflexivity. }
  rewrite Hrun. exists (length (calls s1)). split; [exact Hc|].
  destruct (chain X (length (calls s1)) c) as [b|] eqn:Hch; simpl.
  - split; [apply list_lookup_middle; reflexivity|].
    intros v Hv. injection Hv as <-.
    exists (length (published s1)). split; [exact Hp|].
    apply list_lookup_middle. reflexivity.
  - split; [apply list_lookup_middle; reflexivity|].
    intros v Hv. discriminate Hv.
Qed.

Lemma refreshBalance_warns key s s1 :
  wellFormedKey X key = false →
  grown s s1 →
  warned_since s (settle (refreshBalance X key) s1).2 key.
Proof.
  intros Hbad (_ & _ & Hcon & _). unfold settle.
  rewrite refreshBalance_malformed by exact Hbad. simpl.
  exists (length (console s1)). split; [exact Hcon|].
  apply lookup_app_l_Some.
  change (console s1 ++ [WarnInvalidKey key])
    with (console s1 ++ WarnInvalidKey key :: []).
  apply list_lookup_middle. reflexivity.
Qed.

Lemma refreshFunction_sends key e s s1 :
  tf_get key (trackedFunctions s1) = Some e →
  isAddress X (contractAddress e) = true →
  cache_consistent X s1 →
  grown s s1 →
  ∃ this, b_address this = contractAddress e
          ∧ sent_since X s (settle (refreshFunction X key) s1).2
              (functionCall e this) key (λ v, v).
Proof.
  intros He Ha Hcache (Hc & Hp & _ & _).
  destruct (observableContract_caches X (contractAddress e) s1 Ha) as (h & Hr & Hl).
  pose proof (observableContract_cache_consistent X None (contractAddress e) s1 Hcache)
    as Hcache2.
  destruct (observableContract_calls X None (contractAddress e) s1) as [Hc2 Hp2].
  destruct (Hcache2 _ _ Hl) as (_ & _ & Haddr & _).
  exists (h_raw h). split; [exact Haddr|].
  unfold settle, refreshFunction, invoke.
  unfold mbind, M_bind, mret, M_ret, gets, modify. rewrite He.
  destruct (observableContract X None (contractAddress e) s1) as [o s2].
  simpl in Hr, Hc2, Hp2. subst o. fold (functionCall e (h_raw h)).
  exists (length (calls s2)). split; [rewrite Hc2; exact Hc|].
  destruct (chain X (length (calls s2)) (functionCall e (h_raw h))) as [v|] eqn:Hch;
    simpl.
  - split; [apply list_lookup_middle; reflexivity|].
    intros w Hw. injection Hw as <-.
    exists (length (published s2)). split; [rewrite Hp2; exact Hp|].
    apply list_lookup_middle. reflexivity.
  - split; [apply list_lookup_middle; reflexivity|].
    intros w Hw. discriminate Hw.
Qed.

(** *** One call per callback at most *)

Lemma call_binding_calls contract prop args s :
  length (calls (call_binding X contract prop args s).2) ≤ S (length (calls s)).
Proof.
  unfold call_binding. destruct (is_function contract prop); simpl.
  - rewrite length_app. simpl. lia.
  - lia.
Qed.

Lemma settle_refreshBalance_calls k s :
  length (calls (settle (refreshBalance X k) s).2) ≤ S (length (calls s)).
Proof.
  unfold settle, refreshBalance. cbv zeta.
  destruct (isAddressV X (element (js_split "." k) 0)
            && isAddressV X (element (js_split "." k) 1)); [|simpl; lia].
  unfold mbind, M_bind, mret, M_ret, modify.
  destruct (observableContract_explicit_frame X (erc20 X)
              (text (element (js_split "." k) 0)) s) as (_ & _ & Hc).
  destruct (observableContract X (Some (erc20 X)) _ s) as [[h|e] s2]; simpl in Hc;
    rewrite <- Hc; [|simpl; lia].
  pose proof (call_binding_calls (h_raw h) "balanceOf"
                [element (js_split "." k) 1] s2) as Hb.
  destruct (call_binding X (h_raw h) "balanceOf" _ s2) as [[[b|]|e] s3];
    simpl in *; lia.
Qed.

Lemma settle_refreshFunction_calls k s :
  length (calls (settle (refreshFunction X k) s).2) ≤ S (length (calls s)).
Proof.
  unfold settle, refreshFunction, invoke.
  unfold mbind, M_bind, mret, M_ret, gets, modify, throw.
  destruct (tf_get k (trackedFunctions s)) as [e|]; [|simpl; lia].
  destruct (observableContract_calls X None (contractAddress e) s) as [Hc _].
  destruct (observableContract X None (contractAddress e) s) as [[h|err] s2];
    simpl in Hc; rewrite <- Hc; [|simpl; lia].
  destruct (chain X _ _); simpl; rewrite length_app; simpl; lia.
Qed.

Lemma forEach_calls_bound callback keys s :
  (∀ k s1, length (calls (settle (callback k) s1).2) ≤ S (length (calls s1))) →
  length (calls (forEach callback keys s).2) ≤ length (calls s) + length keys.
Proof.
  intros Hcb. revert s. induction keys as [|k keys IH]; intros s; simpl; [lia|].
  specialize (Hcb k s). destruct (settle (callback k) s) as [d s1]. simpl in Hcb.
  specialize (IH s1). destruct (forEach callback keys s1) as [ds s2].
  simpl in *. lia.
Qed.

(** *** One 'running balance update' per cycle *)

Lemma refreshRuns_console l s :
  refreshRuns (add_console l s)
  = refreshRuns s + (if is_running l then 1 else 0).
Proof.
  unfold refreshRuns. simpl. rewrite List.filter_app, length_app. simpl.
  destruct (is_running l); reflexivity.
Qed.

Lemma refresh_runs c :
  (∀ k, preserves (λ s, refreshRuns s = c) (refreshBalance X k))
  ∧ (∀ k, preserves (λ s, refreshRuns s = c) (refreshFunction X k)).
Proof.
  set (I := λ s : world, refreshRuns s = c).
  assert (Hquiet : ∀ l s, is_running l = false → I s → I (add_console l s)).
  { intros l s Hl Hs. unfold I. rewrite refreshRuns_console, Hl. unfold I in Hs. lia. }
  assert (Herr : ∀ a s, I s → I (add_console (ErrorAbi a) s))
    by (intros; apply Hquiet; [reflexivity | assumption]).
  assert (Hfall : ∀ a s, I s → I (add_console (WarnFallback a) s))
    by (intros; apply Hquiet; [reflexivity | assumption]).
  assert (Hinv : ∀ k s, I s → I (add_console (WarnInvalidKey k) s))
    by (intros; apply Hquiet; [reflexivity | assumption]).
  assert (Hfmt : ∀ s, I s → I (add_console WarnKeyFormat s))
    by (intros; apply Hquiet; [reflexivity | assumption]).
  assert (Hcall : ∀ c' s, I s → I (add_call c' s)) by (intros; assumption).
  assert (Hpub : ∀ k v s, I s → I (add_published k v s)) by (intros; assumption).
  assert (Hnext : ∀ n s, I s → I (set_nextHandle n s)) by (intros; assumption).
  assert (Hset : ∀ g s, I s → I (set_contracts g s)) by (intros; assumption).
  assert (Hget : ∀ abi a, preserves I (observableContract X abi a)).
  { intros abi a. unfold observableContract, validateIsAddress. preserve. }
  assert (Hbind : ∀ contract prop args, preserves I (call_binding X contract prop args)).
  { apply call_binding_preserves. exact Hcall. }
  assert (Hinvoke : ∀ c', preserves I (invoke X c')).
  { apply invoke_preserves. exact Hcall. }
  split; intros k.
  - unfold refreshBalance. preserve.
  - unfold refreshFunction. preserve.
Qed.

Lemma updateOnBlock_runs s : refreshRuns (updateOnBlock X s) = S (refreshRuns s).
Proof.
  rewrite updateOnBlock_unfold. cbv zeta.
  destruct (refresh_runs (S (refreshRuns s))) as [Hb Hf].
  change (refreshRuns
            (forEach (refreshFunction X) (map fst (trackedFunctions s))
               (forEach (refreshBalance X) (trackedBalances s)
                  (add_console (LogRunning (clock s)) s)).2).2
          = S (refreshRuns s)).
  apply (forEach_preserves (λ s', refreshRuns s' = S (refreshRuns s))); [exact Hf|].
  apply (forEach_preserves (λ s', refreshRuns s' = S (refreshRuns s))); [exact Hb|].
  rewrite refreshRuns_console. simpl. lia.
Qed.

Lemma updateOnBlock_calls_bound s :
  length (calls (updateOnBlock X s)) ≤ length (calls s) + length (trackedKeys s).
Proof.
  rewrite updateOnBlock_unfold. cbv zeta.
  set (s0 := add_console (LogRunning (clock s)) s).
  pose proof (forEach_calls_bound (refreshBalance X) (trackedBalances s) s0
                settle_refreshBalance_calls) as Hb.
  pose proof (forEach_calls_bound (refreshFunction X) (map fst (trackedFunctions s))
                (forEach (refreshBalance X) (trackedBalances s) s0).2
                settle_refreshFunction_calls) as Hf.
  unfold trackedKeys. rewrite length_app. simpl in *.
  change (calls s0) with (calls s) in Hb. lia.
Qed.

(** *** A whole cycle *)

Lemma preserves_ex {A B} (P : B → Prop) (R : B → world → Prop) (m : M A) :
  (∀ b, preserves (R b) m) → preserves (λ s, ∃ b, P b ∧ R b s) m.
Proof. intros HR s (b & Hp & Hr). exists b. split; [exact Hp | apply HR, Hr]. Qed.

(** One run of [updateOnBlock] goes through every tracked entry. *)
Lemma updateOnBlock_refreshes s :
  cache_consistent X s → refreshed X s (updateOnBlock X s).
Proof.
  intros Hcache. rewrite updateOnBlock_unfold. cbv zeta.
  set (s0 := add_console (LogRunning (clock s)) s).
  set (b := forEach (refreshBalance X) (trackedBalances s) s0).
  set (f := forEach (refreshFunction X) (map fst (trackedFunctions s)) b.2).
  assert (Hg0 : grown s s0).
  { repeat split; simpl; try lia. rewrite length_app. lia. }
  destruct (refresh_grown s) as [Gb Gf].
  split; [|split].
  - intros key Hin Hwf Hbal.
    destruct (sent_since_kept s (balanceCall X s key) key (λ v, VStr (toString X v)))
      as [Kb Kf].
    assert (Hb : sent_since X s b.2 (balanceCall X s key) key
                   (λ v, VStr (toString X v))).
    { apply (forEach_establishes (refreshBalance X) (trackedBalances s) key
               (λ s', sent_since X s s' (balanceCall X s key) key
                        (λ v, VStr (toString X v))) (grown s));
        [exact Gb | exact Kb | | exact Hin | exact Hg0].
      intros s1 H1. apply refreshBalance_sends; assumption. }
    exact (forEach_preserves _ (refreshFunction X) (map fst (trackedFunctions s))
             b.2 Kf Hb).
  - intros key Hin Hbad.
    destruct (warned_since_kept s key) as [Kb Kf].
    assert (Hb : warned_since s b.2 key).
    { apply (forEach_establishes (refreshBalance X) (trackedBalances s) key
               (λ s', warned_since s s' key) (grown s));
        [exact Gb | exact Kb | | exact Hin | exact Hg0].
      intros s1 H1. apply refreshBalance_warns; assumption. }
    exact (forEach_preserves _ (refreshFunction X) (map fst (trackedFunctions s))
             b.2 Kf Hb).
  - intros key e He Ha.
    destruct (refresh_keeps_entry X key e) as [Eb Ef].
    destruct refresh_cache_consistent as [Cb Cf].
    set (J := λ s1 : world,
           (tf_get key (trackedFunctions s1) = Some e ∧ cache_consistent X s1)
           ∧ grown s s1).
    assert (Jb : ∀ k, preserves J (refreshBalance X k)).
    { intros k. apply preserves_and; [apply preserves_and; [apply Eb | apply Cb]|apply Gb]. }
    assert (Jf : ∀ k, preserves J (refreshFunction X k)).
    { intros k. apply preserves_and; [apply preserves_and; [apply Ef | apply Cf]|apply Gf]. }
    assert (J0 : J s0) by (split; [split; [exact He | exact Hcache] | exact Hg0]).
    assert (J1 : J b.2) by exact (forEach_preserves J (refreshBalance X) _ s0 Jb J0).
    apply (forEach_establishes (refreshFunction X) (map fst (trackedFunctions s)) key
             (λ s', ∃ this, b_address this = contractAddress e
                            ∧ sent_since X s s' (functionCall e this) key (λ v, v))
             J); [exact Jf | | | exact (tf_get_keys key e _ He) | exact J1].
    + intros k. apply preserves_ex. intros this.
      destruct (sent_since_kept s (functionCall e this) key (λ v, v)) as [_ Kf].
      apply Kf.
    + intros s1 [[H1 H2] H3]. apply refreshFunction_sends; assumption.
Qed.

Lemma elapse_fires ms s id due :
  timers s = [(id, due)] → (due ≤ clock s + ms)%Z →
  elapse X ms s
  = updateOnBlock X
      (set_clock (clock s + ms)
         (set_scheduler (blockNumberPid s) [] (nextTimer s) s)).
Proof.
  intros Ht Hdue.
  assert (Hd : filter (λ t : nat * Z, (t.2 ≤ clock s + ms)%Z) [(id, due)]
               = [(id, due)]).
  { rewrite filter_cons_True by exact Hdue. reflexivity. }
  assert (Hr : filter (λ t : nat * Z, ¬ (t.2 ≤ clock s + ms)%Z) [(id, due)] = []).
  { rewrite filter_cons_False; [reflexivity|]. simpl. tauto. }
  unfold elapse. rewrite Ht, Hd, Hr. reflexivity.
Qed.

Lemma elapse_idle_effects ms s :
  timers s = [] →
  calls (elapse X ms s) = calls s
  ∧ published (elapse X ms s) = published s
  ∧ refreshRuns (elapse X ms s) = refreshRuns s.
Proof. intros H. unfold elapse. rewrite H. repeat split. Qed.

(** Block-number events within the threshold call nothing, publish nothing
    and start no refresh. *)
Lemma burst_effects ns s :
  Forall (λ n, (n ≤ lastTarget s + 4)%Z) ns →
  calls (run X (map BlockNumber ns) s) = calls s
  ∧ published (run X (map BlockNumber ns) s) = published s
  ∧ refreshRuns (run X (map BlockNumber ns) s) = refreshRuns s.
Proof.
  revert s. induction ns as [|n ns IH]; intros s Hall; simpl; [repeat split|].
  apply Forall_cons in Hall as [Hn Hall].
  rewrite onBlockNumber_within by exact Hn.
  destruct (IH (add_console (LogBlockNumber n) s) Hall) as (Hc & Hp & Hr).
  split; [exact Hc|]. split; [exact Hp|].
  rewrite Hr, refreshRuns_console. simpl. lia.
Qed.

Lemma cache_consistent_run es sg : cache_consistent X (run X es (initial sg)).
Proof.
  apply (reachable_stable X (cache_consistent X)); try (intros; assumption).
  - intros s _ a h Hl. simpl in Hl. rewrite lookup_empty in Hl. discriminate Hl.
  - apply observableContract_cache_consistent.
  - intros a h Hl. simpl in Hl. rewrite lookup_empty in Hl. discriminate Hl.
Qed.

(** C6. In every state the module can reach: a block-number event arms a
    new 500ms timeout (cancelling the pending one and recording the block)
    exactly when the block exceeds the last target by more than four.  A
    burst of events within four of the last target changes nothing of the
    scheduler, calls nothing, publishes nothing and runs no refresh, also
    not later when nothing was pending.  One event beyond the threshold
    followed by at least 500ms of silence runs [updateOnBlock] exactly once
    ('running balance update' is logged once, and at most one call is made
    per tracked key), and that run goes through every tracked entry: the
    balance of each well-formed balance key is read with [balanceOf] and
    published under the key, each malformed key is warned about, and each
    tracked call with a valid contract address is sent again with its
    stored arguments and overrides and published under its key. *)
Theorem block_advance_debounce (es : list event) (sg : option string) :
  let s := run X es (initial sg) in
  (∀ n, let s' := step X (BlockNumber n) s in
     ((lastTarget s + 4 < n)%Z →
        timers s' = [(nextTimer s, (clock s + 500)%Z)]
        ∧ blockNumberPid s' = (n, Some (nextTimer s))
        ∧ (∀ t, t ∈ timers s → t ∉ timers s'))
     ∧ ((n ≤ lastTarget s + 4)%Z → scheduler s' = scheduler s))
  ∧ (∀ ns, Forall (λ n, (n ≤ lastTarget s + 4)%Z) ns →
       let s' := run X (map BlockNumber ns) s in
       scheduler s' = scheduler s
       ∧ refreshCount s' = refreshCount s
       ∧ (calls s' = calls s ∧ published s' = published s
          ∧ refreshRuns s' = refreshRuns s)
       ∧ (timers s = [] →
          ∀ ms, let s'' := step X (Elapse ms) s' in
                refreshCount s'' = refreshCount s
                ∧ calls s'' = calls s ∧ published s'' = published s
                ∧ refreshRuns s'' = refreshRuns s))
  ∧ (∀ n ms, (lastTarget s + 4 < n)%Z → (500 ≤ ms)%Z →
       let s' := run X [BlockNumber n; Elapse ms] s in
       (∃ cycle,
          cycles s' = cycles s ++ [cycle]
          ∧ refreshCount s' = S (refreshCount s)
          ∧ map fst cycle = trackedKeys s
          ∧ timers s' = [])
       ∧ refreshRuns s' = S (refreshRuns s)
       ∧ length (calls s') ≤ length (calls s) + length (trackedKeys s)
       ∧ refreshed X s s').
Proof.
  intros s. pose proof (one_timer_reachable X es sg) as Hone. fold s in Hone.
  pose proof (cache_consistent_run es sg) as Hcache. fold s in Hcache.
  split; [|split].
  - intros n s'. subst s'. simpl. split.
    + intros Hlt. rewrite onBlockNumber_beyond by exact Hlt.
      destruct (arm_spec n (add_console (LogBlockNumber n) s) Hone)
        as (Ht & Hp & _ & Hold).
      split; [exact Ht|]. split; [exact Hp | exact Hold].
    + intros Hle. rewrite onBlockNumber_within by exact Hle. reflexivity.
  - intros ns Hall s'. subst s'.
    destruct (burst_ignored X ns s Hall) as [Hs Hc].
    destruct (burst_effects ns s Hall) as (Hcalls & Hpub & Hruns).
    split; [exact Hs|]. unfold refreshCount. split; [rewrite Hc; reflexivity|].
    split; [split; [exact Hcalls | split; [exact Hpub | exact Hruns]]|].
    intros Hidle ms.
    change (step X (Elapse ms) (run X (map BlockNumber ns) s))
      with (elapse X ms (run X (map BlockNumber ns) s)).
    assert (Ht : timers (run X (map BlockNumber ns) s) = []).
    { unfold scheduler in Hs. injection Hs as _ Ht _ _. rewrite Ht. exact Hidle. }
    destruct (elapse_idle_effects ms _ Ht) as (Ec & Ep & Er).
    rewrite (elapse_idle X ms _ Ht), Hc, Ec, Ep, Er.
    split; [reflexivity|]. split; [exact Hcalls|]. split; [exact Hpub | exact Hruns].
  - intros n ms Hlt Hms s'. subst s'. simpl.
    rewrite onBlockNumber_beyond by exact Hlt.
    set (s0 := add_console (LogBlockNumber n) s).
    destruct (arm_spec n s0 Hone) as (Ht & _).
    assert (Hdue : (clock s + 500 ≤ clock (arm n s0) + ms)%Z) by (simpl; lia).
    split.
    { destruct (elapse_due X ms (arm n s0) _ _ Ht Hdue) as (cycle & Hc & Hk & Hts).
      exists cycle. split; [exact Hc|]. split.
      { unfold refreshCount. rewrite Hc, length_app. simpl.
        change (cycles (arm n s0)) with (cycles s). lia. }
      split; [exact Hk | exact Hts]. }
    rewrite (elapse_fires ms (arm n s0) _ _ Ht Hdue).
    set (s1 := set_clock (clock (arm n s0) + ms)
                 (set_scheduler (blockNumberPid (arm n s0)) []
                    (nextTimer (arm n s0)) (arm n s0))).
    split; [|split].
    + rewrite updateOnBlock_runs.
      change (refreshRuns s1) with (refreshRuns s0).
      unfold s0. rewrite refreshRuns_console. simpl. lia.
    + exact (updateOnBlock_calls_bound s1).
    + destruct (updateOnBlock_refreshes s1 Hcache) as (Hb & Hw & Hf).
      split; [exact Hb|]. split; [|exact Hf].
      intros key Hin Hbad. destruct (Hw key Hin Hbad) as (j & Hj & Hl).
      exists j. split; [|exact Hl].
      change (console s1) with (console s ++ [LogBlockNumber n]) in Hj.
      rewrite length_app in Hj. lia.
Qed.

End Debounce.

Lemma block_advance_debounce_witness :
  (lastTarget world_tracked + 4 < 5)%Z
  ∧ (500 ≤ 500)%Z
  ∧ Forall (λ n, (n ≤ lastTarget world_tracked + 4)%Z) [1; 2; 4]%Z
  ∧ refreshCount (run demo (map BlockNumber [1; 2; 4]%Z) world_tracked)
    = refreshCount world_tracked
  ∧ calls (run demo (map BlockNumber [1; 2; 4]%Z) world_tracked) = calls world_tracked
  ∧ (∃ cycle,
       cycles (run demo [BlockNumber 5; Elapse 500] world_tracked)
       = cycles world_tracked ++ [cycle]
       ∧ refreshCount (run demo [BlockNumber 5; Elapse 500] world_tracked)
         = S (refreshCount world_tracked)
       ∧ map fst cycle = trackedKeys world_tracked
       ∧ timers (run demo [BlockNumber 5; Elapse 500] world_tracked) = [])
  ∧ refreshRuns (run demo [BlockNumber 5; Elapse 500] world_tracked)
    = S (refreshRuns world_tracked)
  ∧ sent_since demo world_tracked (run demo [BlockNumber 5; Elapse 500] world_tracked)
      (balanceCall demo world_tracked (balanceKey demo token_demo account_demo))
      (balanceKey demo token_demo account_demo)
      (λ b, VStr (toString demo b))
  ∧ ∃ this,
      b_address this = token_demo
      ∧ sent_since demo world_tracked (run demo [BlockNumber 5; Elapse 500] world_tracked)
          (CallRaw {| rf_name := "transfer"; rf_owner := contract_demo |} this
             [VStr account_demo; VNum 5; VObj registered_demo])
          (functionKey demo token_demo "transfer" [VStr account_demo; VNum 5] [])
          (λ v, v).
Proof.
  assert (H1 : (lastTarget world_tracked + 4 < 5)%Z) by (vm_compute; reflexivity).
  assert (H2 : (500 ≤ 500)%Z) by lia.
  assert (H3 : Forall (λ n, (n ≤ lastTarget world_tracked + 4)%Z) [1; 2; 4]%Z).
  { repeat constructor; vm_compute; intros H; discriminate H. }
  destruct (block_advance_debounce demo session_demo None) as (_ & Hburst & Hone).
  destruct (Hburst [1; 2; 4]%Z H3) as (_ & Hcount & (Hcalls & _) & _).
  destruct (Hone 5%Z 500%Z H1 H2) as (Hcycle & Hruns & _ & Hbal & _ & Hfun).
  split; [exact H1|]. split; [exact H2|]. split; [exact H3|].
  split; [exact Hcount|]. split; [exact Hcalls|]. split; [exact Hcycle|].
  split; [exact Hruns|]. split.
  - apply Hbal; [|reflexivity|reflexivity].
    apply (proj1 (existsb_eqb_elem _ _)). reflexivity.
  - exact (Hfun
      (functionKey demo token_demo "transfer" [VStr account_demo; VNum 5] [])
      {| contractAddress := token_demo;
         entry_rawFunction := {| rf_name := "transfer"; rf_owner := contract_demo |};
         entry_args := [VStr account_demo; VNum 5];
         entry_overrides := registered_demo |} eq_refl eq_refl).
Defined.
